(** * AiSocialMate: the metrics polling core

    A shallow embedding of [server/social-metrics.ts] (platform fetchers,
    dispatcher, bulk orchestrator, monitor registry) and of
    [server/storage.ts] (the in-memory store: metrics, users, alerts, search
    results and generated replies; and what the metrics page sends), with
    the properties the specification states about them and further
    properties read off the code.

    Layout: JavaScript primitives the code relies on (strings, regular
    expressions, values read from JSON), the asynchronous computations, the
    program itself, and then the theorems. *)

From Stdlib Require Import ZArith Ascii String List Bool Lia.
From Stdlib Require Import Sorting.Sorted Sorting.Permutation.
From stdpp Require Import gmap strings list.

Local Open Scope string_scope.

(** ** Strings

    A JavaScript string is a sequence of UTF-16 code units.  The model keeps
    the code units below 256 (the Latin-1 range, which holds every URL and
    every keyword the program looks for), so a string is a [string] and a code
    unit an [ascii]. *)

Definition unit_code (c : ascii) : nat := nat_of_ascii c.

Definition in_range (lo hi : nat) (c : ascii) : bool :=
  (lo <=? unit_code c)%nat && (unit_code c <=? hi)%nat.

(** [String.prototype.toLowerCase] on one code unit: A-Z, and the Latin-1
    capitals U+00C0..U+00DE except the multiplication sign U+00D7. *)
Definition lower_unit (c : ascii) : ascii :=
  if in_range 65 90 c || (in_range 192 222 c && negb (unit_code c =? 215)%nat)
  then ascii_of_nat (unit_code c + 32)
  else c.

Fixpoint toLowerCase (s : string) : string :=
  match s with
  | EmptyString => EmptyString
  | String c s' => String (lower_unit c) (toLowerCase s')
  end.

(** [s.includes(needle)]: [needle] occurs in [s] as a contiguous substring. *)
Fixpoint includes (s needle : string) : bool :=
  String.prefix needle s ||
  match s with
  | EmptyString => false
  | String _ s' => includes s' needle
  end.

(** ** Regular expressions

    A backtracking matcher with the semantics of the ECMAScript matcher for
    the constructs the program's patterns use: literals, character classes,
    sequence, alternation (left first), greedy repetition and numbered
    capture groups.  [x+] is [x x*] and [x?] is [x|(empty)]. *)

Inductive regex : Type :=
| Eps
| Lit (c : ascii)
| Cls (p : ascii -> bool)
| Seq (r1 r2 : regex)
| Alt (r1 r2 : regex)
| Star (r : regex)
| Group (n : nat) (r : regex).

Definition Plus (r : regex) : regex := Seq r (Star r).
Definition Opt (r : regex) : regex := Alt r Eps.

(** The literal text [s] as a pattern. *)
Fixpoint Str (s : string) : regex :=
  match s with
  | EmptyString => Eps
  | String c s' => Seq (Lit c) (Str s')
  end.

(** Canonicalisation of the [i] flag (no [u] flag): the upper-case form of a
    code unit.  The two Latin-1 letters whose capital lies outside Latin-1
    (U+00B5, U+00FF) and U+00DF (capital of two units) stay as they are, which
    keeps them different from every other code unit, as in ECMAScript. *)
Definition canonicalize (c : ascii) : ascii :=
  if in_range 97 122 c || (in_range 224 254 c && negb (unit_code c =? 247)%nat)
  then ascii_of_nat (unit_code c - 32)
  else c.

Definition unit_matches (icase : bool) (pat c : ascii) : bool :=
  if icase then Ascii.eqb (canonicalize pat) (canonicalize c)
  else Ascii.eqb pat c.

(** The groups of a match: index 0 is the whole match, index [n] is capture
    group [n]; [None] is a group that did not take part ([undefined]). *)
Definition captures : Type := list (option string).

(** The text consumed between the input [s] and its suffix [rest]. *)
Definition consumed (s rest : string) : string :=
  substring 0 (String.length s - String.length rest) s.

Fixpoint rmatch (icase : bool) (r : regex) (s : string) (caps : captures)
    (k : string -> captures -> option captures) {struct r} : option captures :=
  match r with
  | Eps => k s caps
  | Lit p =>
      match s with
      | String c s' => if unit_matches icase p c then k s' caps else None
      | EmptyString => None
      end
  | Cls p =>
      match s with
      | String c s' => if p c then k s' caps else None
      | EmptyString => None
      end
  | Seq r1 r2 => rmatch icase r1 s caps (fun s1 c1 => rmatch icase r2 s1 c1 k)
  | Alt r1 r2 =>
      match rmatch icase r1 s caps k with
      | Some c => Some c
      | None => rmatch icase r2 s caps k
      end
  | Star r1 =>
      (fix loop (n : nat) (s : string) (caps : captures) {struct n} :=
         match n with
         | O => k s caps
         | S n' =>
             match rmatch icase r1 s caps
                     (fun s1 c1 =>
                        if (String.length s1 <? String.length s)%nat
                        then loop n' s1 c1 else None) with
             | Some c => Some c
             | None => k s caps
             end
         end) (String.length s) s caps
  | Group n r1 =>
      rmatch icase r1 s caps
        (fun s1 c1 => k s1 (<[n := Some (consumed s s1)]> c1))
  end.

(** [s.match(re)] for a pattern without the [g] flag: the leftmost match, as
    the array of its groups, or [None] ([null]). *)
Fixpoint rsearch (icase : bool) (r : regex) (ngroups : nat) (s : string)
    : option captures :=
  match rmatch icase r s (replicate (S ngroups) None)
          (fun rest c => Some (<[0%nat := Some (consumed s rest)]> c)) with
  | Some c => Some c
  | None =>
      match s with
      | EmptyString => None
      | String _ s' => rsearch icase r ngroups s'
      end
  end.

Record RegExp : Type := {
  re_body : regex;
  re_groups : nat;
  re_ignoreCase : bool
}.

Definition str_match (s : string) (re : RegExp) : option captures :=
  rsearch (re_ignoreCase re) (re_body re) (re_groups re) s.

(** [m[i]] on a match array. *)
Definition group (m : captures) (i : nat) : option string :=
  match m !! i with
  | Some g => g
  | None => None
  end.

(** Character classes. *)
Definition digit (c : ascii) : bool := in_range 48 57 c.          (* \d *)
Definition not_slash (c : ascii) : bool := negb (unit_code c =? 47)%nat. (* [^/] *)
(** [\s] within Latin-1: TAB, LF, VT, FF, CR, space and U+00A0. *)
Definition space (c : ascii) : bool :=
  in_range 9 13 c || (unit_code c =? 32)%nat || (unit_code c =? 160)%nat.

(** [x.replace(/,/g, '')] *)
Fixpoint remove_commas (s : string) : string :=
  match s with
  | EmptyString => EmptyString
  | String c s' =>
      if (unit_code c =? 44)%nat then remove_commas s'
      else String c (remove_commas s')
  end.

(** [parseInt(x)] on the decimal digits that open [x]: their value, or [None]
    (NaN) when [x] opens with no digit.  Every argument the program passes is
    a non-empty run of digits, so sign, blanks and radix prefixes do not
    arise.  A JavaScript number is a double; the value is exact below 2^53. *)
Fixpoint digits_value (acc : Z) (s : string) : Z :=
  match s with
  | String c s' =>
      if digit c then digits_value (10 * acc + Z.of_nat (unit_code c - 48)) s'
      else acc
  | EmptyString => acc
  end.

Definition parseInt (s : string) : option Z :=
  match s with
  | String c _ => if digit c then Some (digits_value 0 s) else None
  | EmptyString => None
  end.


(** ** Values

    What [response.json()] can produce, plus [undefined] and NaN, which arise
    from property reads and from [parseInt].  Numbers are the integers (every
    count the program handles is one); an object is its list of fields in
    source order, a later duplicate overriding an earlier one. *)

#[warnings="-register-all"] Inductive value : Type :=
| VUndefined
| VNull
| VBool (b : bool)
| VNum (z : Z)
| VNaN
| VStr (s : string)
| VArr (items : list value)
| VObj (fields : list (string * value)).

(** What a [throw] carries: an [Error] object with its name and message, or
    any other value. *)
Inductive js_exn : Type :=
| ErrorObj (name message : string)
| NonError (v : value).

(** How an evaluation or a promise ends. *)
Inductive Outcome (A : Type) : Type :=
| Value (a : A)
| Thrown (e : js_exn).
Arguments Value {A} a.
Arguments Thrown {A} e.

Definition truthy (v : value) : bool :=
  match v with
  | VUndefined | VNull | VNaN => false
  | VBool b => b
  | VNum z => negb (z =? 0)%Z
  | VStr EmptyString => false
  | VStr (String _ _) | VArr _ | VObj _ => true
  end.

Definition nullish (v : value) : bool :=
  match v with
  | VUndefined | VNull => true
  | _ => false
  end.

(** [a || b] *)
Definition js_or (a b : value) : value := if truthy a then a else b.

Definition field (fields : list (string * value)) (key : string) : value :=
  fold_left (fun acc kv => if String.eqb (fst kv) key then snd kv else acc)
    fields VUndefined.

(** The message of V8's TypeError for a property read on [undefined]/[null]. *)
Definition cannot_read (what key : string) : js_exn :=
  ErrorObj "TypeError"
    ("Cannot read properties of " ++ what ++ " (reading '" ++ key ++ "')").

(** [v.key] for a named property (none of the names the program reads is
    defined on a prototype, so only an object's own fields answer). *)
Definition get_prop (v : value) (key : string) : Outcome value :=
  match v with
  | VUndefined => Thrown (cannot_read "undefined" key)
  | VNull => Thrown (cannot_read "null" key)
  | VObj fields => Value (field fields key)
  | _ => Value VUndefined
  end.

(** [v[0]] *)
Definition get_first (v : value) : Outcome value :=
  match v with
  | VUndefined => Thrown (cannot_read "undefined" "0")
  | VNull => Thrown (cannot_read "null" "0")
  | VArr items => Value (default VUndefined (items !! 0%nat))
  | VStr (String c _) => Value (VStr (String c EmptyString))
  | VObj fields => Value (field fields "0")
  | _ => Value VUndefined
  end.

(** [snippet.match(re)]: only a string has a [match] method. *)
Definition value_match (receiver : string) (v : value) (re : RegExp)
    : Outcome (option captures) :=
  match v with
  | VStr s => Value (str_match s re)
  | VUndefined => Thrown (cannot_read "undefined" "match")
  | VNull => Thrown (cannot_read "null" "match")
  | _ => Thrown (ErrorObj "TypeError" (receiver ++ ".match is not a function"))
  end.

(** [parseInt(m[1].replace(/,/g, ''))] *)
Definition parse_count (m : captures) : Outcome value :=
  match group m 1 with
  | Some g =>
      Value (match parseInt (remove_commas g) with
             | Some n => VNum n
             | None => VNaN
             end)
  | None => Thrown (cannot_read "undefined" "replace")
  end.

(** A template literal's rendering of a match group. *)
Definition template (g : option string) : string := default "undefined" g.

(** ** Asynchronous computations

    An [async] function is a tree: it ends with a value or a throw, or it
    waits for the outside world - a [fetch], the body of a response, the
    clock - and goes on with the answer. *)

Record Request : Type := {
  req_url : string;
  req_method : string;
  req_headers : list (string * string);
  req_body : option value          (* the value given to JSON.stringify *)
}.

Record Response : Type := {
  ok : bool;
  statusText : string
}.

Inductive Async (A : Type) : Type :=
| Ret (a : A)
| Throw (e : js_exn)
| AwaitFetch (req : Request) (k : Outcome Response -> Async A)
| AwaitJson (resp : Response) (k : Outcome value -> Async A)
| NewDate (k : string -> Async A).
Arguments Ret {A} a.
Arguments Throw {A} e.
Arguments AwaitFetch {A} req k.
Arguments AwaitJson {A} resp k.
Arguments NewDate {A} k.

Fixpoint bind {A B : Type} (t : Async A) (f : A -> Async B) : Async B :=
  match t with
  | Ret a => f a
  | Throw e => Throw e
  | AwaitFetch req k => AwaitFetch req (fun x => bind (k x) f)
  | AwaitJson resp k => AwaitJson resp (fun x => bind (k x) f)
  | NewDate k => NewDate (fun x => bind (k x) f)
  end.

#[export] Instance Async_ret : MRet Async := @Ret.
#[export] Instance Async_bind : MBind Async := fun A B f t => bind t f.

(** [try { t } catch (e) { h e }] *)
Fixpoint try_catch {A : Type} (t : Async A) (h : js_exn -> Async A) : Async A :=
  match t with
  | Ret a => Ret a
  | Throw e => h e
  | AwaitFetch req k => AwaitFetch req (fun x => try_catch (k x) h)
  | AwaitJson resp k => AwaitJson resp (fun x => try_catch (k x) h)
  | NewDate k => NewDate (fun x => try_catch (k x) h)
  end.

Definition settle {A : Type} (o : Outcome A) : Async A :=
  match o with
  | Value a => Ret a
  | Thrown e => Throw e
  end.

Definition fetch (req : Request) : Async Response := AwaitFetch req settle.
Definition json (resp : Response) : Async value := AwaitJson resp settle.
(** [new Date().toISOString()] *)
Definition now : Async string := NewDate Ret.
Definition throw_Error {A : Type} (message : string) : Async A :=
  Throw (ErrorObj "Error" message).

(** ** The records of [social-metrics.ts] *)

Record Metrics : Type := {
  upvotes : option value;
  downvotes : option value;
  comments : option value;
  awards : option value;
  views : option value;
  upvotes_quora : option value;
  shares : option value;
  likes : option value;
  retweets : option value;
  replies : option value;
  quotes : option value;
  bookmarks : option value
}.

(** [metrics: {}] *)
Definition no_metrics : Metrics :=
  {| upvotes := None; downvotes := None; comments := None; awards := None;
     views := None; upvotes_quora := None; shares := None;
     likes := None; retweets := None; replies := None; quotes := None;
     bookmarks := None |}.

Record SocialMetrics : Type := {
  platform : string;
  url : string;
  metrics : Metrics;
  timestamp : string;
  success : bool;
  error : option string
}.

(** [config.serper.apiKey].  The module [./config] is not among the sources;
    the fetchers take the configuration as a parameter. *)
Record SerperConfig : Type := { apiKey : string }.
Record Config : Type := { serper : SerperConfig }.

(** ** The patterns of [social-metrics.ts] *)

(** The shape shared by the five snippet patterns. *)
Definition count_re (word : string) (plural : ascii) : RegExp :=
  {| re_body :=
       Seq (Group 1 (Seq (Plus (Cls digit))
                         (Star (Seq (Lit ",") (Plus (Cls digit))))))
           (Seq (Star (Cls space)) (Seq (Str word) (Opt (Lit plural))));
     re_groups := 1;
     re_ignoreCase := true |}.

(** [/reddit\.com\/r\/[^/]+\/comments\/([^/]+)/] *)
Definition reddit_re : RegExp :=
  {| re_body :=
       Seq (Str "reddit.com/r/")
           (Seq (Plus (Cls not_slash))
                (Seq (Str "/comments/") (Group 1 (Plus (Cls not_slash)))));
     re_groups := 1;
     re_ignoreCase := false |}.

(** [/twitter\.com\/[^/]+\/status\/(\d+)|x\.com\/[^/]+\/status\/(\d+)/] *)
Definition twitter_re : RegExp :=
  {| re_body :=
       Alt (Seq (Str "twitter.com/")
                (Seq (Plus (Cls not_slash))
                     (Seq (Str "/status/") (Group 1 (Plus (Cls digit))))))
           (Seq (Str "x.com/")
                (Seq (Plus (Cls not_slash))
                     (Seq (Str "/status/") (Group 2 (Plus (Cls digit))))));
     re_groups := 2;
     re_ignoreCase := false |}.

(** The snippet patterns: a run of digits with comma-separated groups
    (capture 1), optional blanks, the word, an optional plural letter, all
    case-insensitive; in the source's notation, with blanks added,
    [/( \d+ (?: ,\d+ )* ) \s* views? /i]. *)
Definition views_re : RegExp := count_re "view" "s".
Definition upvotes_re : RegExp := count_re "upvote" "s".
Definition likes_re : RegExp := count_re "like" "s".
Definition retweets_re : RegExp := count_re "retweet" "s".
Definition replies_re : RegExp := count_re "replie" "s".

(** [m ? parseInt(m[1].replace(/,/g, '')) : 0] *)
Definition count_or_zero (m : option captures) : Outcome value :=
  match m with
  | Some c => parse_count c
  | None => Value (VNum 0)
  end.

(** The double quote (code unit 34). *)
Definition dquote : string := String (ascii_of_nat 34) EmptyString.

(** ** The platform fetchers, the dispatcher and the bulk orchestrator *)

Section Fetchers.

Variable config : Config.

(** The [catch] block the three fetchers share, for the platform given. *)
Definition failure (platform url : string) (e : js_exn) : Async SocialMetrics :=
  ts ← now;
  Ret {| platform := platform;
         url := url;
         metrics := no_metrics;
         timestamp := ts;
         success := false;
         error := Some (match e with
                        | ErrorObj _ message => message
                        | NonError _ => "Unknown error"
                        end) |}.

(** [data[0]?.data?.children[0]?.data] *)
Definition reddit_postData (data : value) : Outcome value :=
  match get_first data with
  | Thrown e => Thrown e
  | Value d0 =>
      if nullish d0 then Value VUndefined else
      match get_prop d0 "data" with
      | Thrown e => Thrown e
      | Value d1 =>
          if nullish d1 then Value VUndefined else
          match get_prop d1 "children" with
          | Thrown e => Thrown e
          | Value children =>
              match get_first children with
              | Thrown e => Thrown e
              | Value c0 =>
                  if nullish c0 then Value VUndefined else get_prop c0 "data"
              end
          end
      end
  end.

(** The body of the [try] block of [getRedditMetrics]. *)
Definition getRedditMetrics_try (url : string) : Async SocialMetrics :=
  match str_match url reddit_re with
  | None => throw_Error "Invalid Reddit URL format"
  | Some redditMatch =>
      let postId := group redditMatch 1 in
      let apiUrl :=
        "https://www.reddit.com/comments/" ++ template postId ++ ".json" in
      response ← fetch
        {| req_url := apiUrl;
           req_method := "GET";
           req_headers :=
             [("User-Agent",
               "SocialMonitor-AI/1.0 (Social Media Analytics Tool)");
              ("Accept", "application/json")];
           req_body := None |};
      if negb (ok response)
      then throw_Error ("Reddit API error: " ++ statusText response)
      else
        data ← json response;
        postData ← settle (reddit_postData data);
        if negb (truthy postData)
        then throw_Error "Reddit post data not found"
        else
          ups ← settle (get_prop postData "ups");
          downs ← settle (get_prop postData "downs");
          num_comments ← settle (get_prop postData "num_comments");
          total_awards_received ←
            settle (get_prop postData "total_awards_received");
          ts ← now;
          Ret {| platform := "reddit";
                 url := url;
                 metrics :=
                   {| upvotes := Some (js_or ups (VNum 0));
                      downvotes := Some (js_or downs (VNum 0));
                      comments := Some (js_or num_comments (VNum 0));
                      awards := Some (js_or total_awards_received (VNum 0));
                      views := None; upvotes_quora := None; shares := None;
                      likes := None; retweets := None; replies := None;
                      quotes := None; bookmarks := None |};
                 timestamp := ts;
                 success := true;
                 error := None |}
  end.

Definition getRedditMetrics (url : string) : Async SocialMetrics :=
  try_catch (getRedditMetrics_try url) (failure "reddit" url).

(** The request both scraping fetchers send to the search proxy. *)
Definition serper_search (q : string) : Request :=
  {| req_url := "https://google.serper.dev/search";
     req_method := "POST";
     req_headers :=
       [("X-API-KEY", apiKey (serper config));
        ("Content-Type", "application/json")];
     req_body := Some (VObj [("q", VStr q); ("num", VNum 1)]) |}.

(** [data.organic?.[0]] *)
Definition first_organic (data : value) : Outcome value :=
  match get_prop data "organic" with
  | Thrown e => Thrown e
  | Value organic =>
      if nullish organic then Value VUndefined else get_first organic
  end.

Definition getQuoraMetrics_try (url : string) : Async SocialMetrics :=
  response ← fetch (serper_search ("site:quora.com " ++ dquote ++ url ++ dquote));
  if negb (ok response)
  then throw_Error ("Serper API error: " ++ statusText response)
  else
    data ← json response;
    result ← settle (first_organic data);
    if negb (truthy result)
    then throw_Error "Quora post not found in search results"
    else
      text ← settle (get_prop result "snippet");
      let snippet := js_or text (VStr EmptyString) in
      viewsMatch ← settle (value_match "snippet" snippet views_re);
      upvotesMatch ← settle (value_match "snippet" snippet upvotes_re);
      nviews ← settle (count_or_zero viewsMatch);
      nupvotes ← settle (count_or_zero upvotesMatch);
      ts ← now;
      Ret {| platform := "quora";
             url := url;
             metrics :=
               {| upvotes := None; downvotes := None; comments := None;
                  awards := None;
                  views := Some nviews;
                  upvotes_quora := Some nupvotes;
                  shares := Some (VNum 0);
                  likes := None; retweets := None; replies := None;
                  quotes := None; bookmarks := None |};
             timestamp := ts;
             success := true;
             error := None |}.

Definition getQuoraMetrics (url : string) : Async SocialMetrics :=
  try_catch (getQuoraMetrics_try url) (failure "quora" url).

(** [twitterMatch[1] || twitterMatch[2]] *)
Definition tweet_id (m : captures) : option string :=
  match group m 1 with
  | Some (String c s) => Some (String c s)
  | _ => group m 2
  end.

(** [result?.snippet] *)
Definition optional_snippet (result : value) : Outcome value :=
  if nullish result then Value VUndefined else get_prop result "snippet".

Definition getTwitterMetrics_try (url : string) : Async SocialMetrics :=
  match str_match url twitter_re with
  | None => throw_Error "Invalid Twitter/X URL format"
  | Some twitterMatch =>
      let tweetId := tweet_id twitterMatch in
      response ← fetch
        (serper_search ("site:twitter.com OR site:x.com " ++ dquote ++
                        template tweetId ++ dquote ++ " engagement metrics"));
      if negb (ok response)
      then throw_Error ("Serper API error: " ++ statusText response)
      else
        data ← json response;
        result ← settle (first_organic data);
        text ← settle (optional_snippet result);
        let snippet := js_or text (VStr EmptyString) in
        likesMatch ← settle (value_match "snippet" snippet likes_re);
        retweetsMatch ← settle (value_match "snippet" snippet retweets_re);
        repliesMatch ← settle (value_match "snippet" snippet replies_re);
        nlikes ← settle (count_or_zero likesMatch);
        nretweets ← settle (count_or_zero retweetsMatch);
        nreplies ← settle (count_or_zero repliesMatch);
        ts ← now;
        Ret {| platform := "twitter";
               url := url;
               metrics :=
                 {| upvotes := None; downvotes := None; comments := None;
                    awards := None;
                    views := None; upvotes_quora := None; shares := None;
                    likes := Some nlikes;
                    retweets := Some nretweets;
                    replies := Some nreplies;
                    quotes := Some (VNum 0);
                    bookmarks := Some (VNum 0) |};
               timestamp := ts;
               success := true;
               error := None |}
  end.

Definition getTwitterMetrics (url : string) : Async SocialMetrics :=
  try_catch (getTwitterMetrics_try url) (failure "twitter" url).

Definition getSocialMetrics (url : string) : Async SocialMetrics :=
  let normalizedUrl := toLowerCase url in
  if includes normalizedUrl "reddit.com" then getRedditMetrics url
  else if includes normalizedUrl "quora.com" then getQuoraMetrics url
  else if includes normalizedUrl "twitter.com" || includes normalizedUrl "x.com"
  then getTwitterMetrics url
  else
    ts ← now;
    Ret {| platform := "unknown";
           url := url;
           metrics := no_metrics;
           timestamp := ts;
           success := false;
           error := Some "Unsupported platform. Supported: Reddit, Quora, Twitter/X" |}.

End Fetchers.

(** ** Running a computation

    The outside world as one async function sees it: what each request is
    answered with, how each response body parses, and what the clock reads. *)

Record Upstream : Type := {
  on_fetch : Request -> Outcome Response;
  on_json : Response -> Outcome value;
  clock : string
}.

Fixpoint run {A : Type} (w : Upstream) (t : Async A) : Outcome A :=
  match t with
  | Ret a => Value a
  | Throw e => Thrown e
  | AwaitFetch req k => run w (k (on_fetch w req))
  | AwaitJson resp k => run w (k (on_json w resp))
  | NewDate k => run w (k (clock w))
  end.

(** The network requests a computation issues on its way. *)
Fixpoint requests {A : Type} (w : Upstream) (t : Async A) : list Request :=
  match t with
  | Ret _ | Throw _ => []
  | AwaitFetch req k => req :: requests w (k (on_fetch w req))
  | AwaitJson resp k => requests w (k (on_json w resp))
  | NewDate k => requests w (k (clock w))
  end.

(** ** Interleaved execution

    Several computations in flight at once: the world answers them one at a
    time, in any order.  An [answer] is what one waiting computation is
    resumed with. *)

Inductive answer : Type :=
| FetchSettled (o : Outcome Response)
| JsonSettled (o : Outcome value)
| DateRead (iso : string).

Definition resume {A : Type} (t : Async A) (a : answer) : option (Async A) :=
  match t, a with
  | AwaitFetch _ k, FetchSettled o => Some (k o)
  | AwaitJson _ k, JsonSettled o => Some (k o)
  | NewDate k, DateRead iso => Some (k iso)
  | _, _ => None
  end.

Fixpoint feed {A : Type} (t : Async A) (answers : list answer)
    : option (Async A) :=
  match answers with
  | [] => Some t
  | a :: rest =>
      match resume t a with
      | Some t' => feed t' rest
      | None => None
      end
  end.

(** A schedule: which computation is resumed next, and with what. *)
Abbreviation schedule := (list (nat * answer)).

Definition deliver {A : Type} (pool : list (Async A)) (i : nat) (a : answer)
    : option (list (Async A)) :=
  match pool !! i with
  | Some t =>
      match resume t a with
      | Some t' => Some (<[i := t']> pool)
      | None => None
      end
  | None => None
  end.

Fixpoint exec {A : Type} (pool : list (Async A)) (sched : schedule)
    : option (list (Async A)) :=
  match sched with
  | [] => Some pool
  | (i, a) :: rest =>
      match deliver pool i a with
      | Some pool' => exec pool' rest
      | None => None
      end
  end.

(** The answers a schedule gives to the computation at index [i]. *)
Definition answers_at (i : nat) (sched : schedule) : list answer :=
  map snd (filter (fun p => fst p = i) sched).

Definition settled {A : Type} (t : Async A) : bool :=
  match t with
  | Ret _ | Throw _ => true
  | _ => false
  end.

(** [Promise.all(promises)] on the promises of the pool: rejected as soon as
    one of them is (the lowest index stands for the first in time),
    fulfilled with the values in index order once all are fulfilled, pending
    ([None]) otherwise. *)
Fixpoint first_rejection {A : Type} (pool : list (Async A)) : option js_exn :=
  match pool with
  | [] => None
  | Throw e :: _ => Some e
  | _ :: rest => first_rejection rest
  end.

Fixpoint all_values {A : Type} (pool : list (Async A)) : option (list A) :=
  match pool with
  | [] => Some []
  | Ret a :: rest =>
      match all_values rest with
      | Some l => Some (a :: l)
      | None => None
      end
  | _ :: _ => None
  end.

Definition Promise_all {A : Type} (pool : list (Async A))
    : option (Outcome (list A)) :=
  match first_rejection pool with
  | Some e => Some (Thrown e)
  | None =>
      match all_values pool with
      | Some l => Some (Value l)
      | None => None
      end
  end.

(** [urls.map(url => getSocialMetrics(url))]: the promises
    [getBulkSocialMetrics] hands to [Promise.all]. *)
Definition getBulkSocialMetrics (config : Config) (urls : list string)
    : list (Async SocialMetrics) :=
  map (getSocialMetrics config) urls.

(** The schedule that runs the computation at index [i] to its end against
    [w], and the one that does so for a whole pool, one computation after
    the other. *)
Fixpoint solo {A : Type} (w : Upstream) (i : nat) (t : Async A) : schedule :=
  match t with
  | Ret _ | Throw _ => []
  | AwaitFetch req k =>
      (i, FetchSettled (on_fetch w req)) :: solo w i (k (on_fetch w req))
  | AwaitJson resp k =>
      (i, JsonSettled (on_json w resp)) :: solo w i (k (on_json w resp))
  | NewDate k => (i, DateRead (clock w)) :: solo w i (k (clock w))
  end.

Fixpoint in_turn {A : Type} (w : Upstream) (i : nat) (pool : list (Async A))
    : schedule :=
  match pool with
  | [] => []
  | t :: rest => (solo w i t ++ in_turn w (S i) rest)%list
  end.

(** ** The metrics store ([MemStorage] of [storage.ts], social metrics) *)

Module MemStorage.

(** Modelled from the spec: the row type [SocialMetric] and the insert type
    [InsertSocialMetric] are declared in [@shared/schema], which is not among
    the sources.  By the specification the store holds metrics records, each
    given an identifier and a creation time at insert; so the insert type is
    the metrics record, and a row is that record with [id] and [createdAt].
    [createdAt] is nullable, as the non-null assertions of the code say;
    a date is its time value in milliseconds. *)
Record SocialMetric : Type := {
  id : Z;
  row : SocialMetrics;
  createdAt : option Z
}.

(** [m.url] and [m.platform] on a row. *)
Definition row_url (m : SocialMetric) : string := url (row m).
Definition row_platform (m : SocialMetric) : string := platform (row m).

(** [new Date(d).getTime()]; [new Date(null)] is the epoch. *)
Definition getTime (d : option Z) : Z := default 0%Z d.

(** A [Map<number, SocialMetric>], in insertion order. *)
Definition NumberMap : Type := list (Z * SocialMetric).

(** [map.set(k, v)]: a present key keeps its place, a new one goes last. *)
Fixpoint map_set (k : Z) (v : SocialMetric) (m : NumberMap) : NumberMap :=
  match m with
  | [] => [(k, v)]
  | (k', v') :: rest =>
      if (k' =? k)%Z then (k, v) :: rest else (k', v') :: map_set k v rest
  end.

(** [Array.from(map.values())] *)
Definition values (m : NumberMap) : list SocialMetric := map snd m.

Record Store : Type := {
  socialMetrics : NumberMap;
  currentMetricId : Z
}.

(** The store a [new MemStorage()] starts with. *)
Definition empty : Store := {| socialMetrics := []; currentMetricId := 1 |}.

(** The comparator of the source: [getTime(b) - getTime(a)]. *)
Definition newest_first (a b : SocialMetric) : Z :=
  (getTime (createdAt b) - getTime (createdAt a))%Z.

(** [Array.prototype.sort] is stable, and for a consistent comparator every
    stable sort yields the same array; insertion sort is the plainest one.
    [a] goes before [b] unless the comparator is positive. *)
Fixpoint insert_sorted (cmp : SocialMetric -> SocialMetric -> Z)
    (x : SocialMetric) (l : list SocialMetric) : list SocialMetric :=
  match l with
  | [] => [x]
  | y :: rest =>
      if (cmp x y <=? 0)%Z then x :: y :: rest
      else y :: insert_sorted cmp x rest
  end.

Fixpoint sort (cmp : SocialMetric -> SocialMetric -> Z)
    (l : list SocialMetric) : list SocialMetric :=
  match l with
  | [] => []
  | x :: rest => insert_sorted cmp x (sort cmp rest)
  end.

(** [if (s)] on an optional string argument: given, and not empty. *)
Definition given (s : option string) : option string :=
  match s with
  | Some (String c rest) => Some (String c rest)
  | _ => None
  end.

Definition getSocialMetrics (url platform : option string) (st : Store)
    : list SocialMetric :=
  let metrics := values (socialMetrics st) in
  let metrics :=
    match given url with
    | Some u => List.filter (fun m => String.eqb (row_url m) u) metrics
    | None => metrics
    end in
  let metrics :=
    match given platform with
    | Some p =>
        List.filter (fun m => String.eqb (row_platform m) p) metrics
    | None => metrics
    end in
  sort newest_first metrics.

(** [now] is what [new Date()] reads at the call. *)
Definition createSocialMetric (now : Z) (insertMetric : SocialMetrics)
    (st : Store) : Store * SocialMetric :=
  let id := currentMetricId st in
  let metric := {| id := id; row := insertMetric; createdAt := Some now |} in
  ({| socialMetrics := map_set id metric (socialMetrics st);
      currentMetricId := (id + 1)%Z |},
   metric).

Definition getLatestMetrics (url : string) (st : Store) : option SocialMetric :=
  head (getSocialMetrics (Some url) None st).

End MemStorage.

(** ** The monitor registry ([MetricsMonitor]) and the timers it owns *)

Module MetricsMonitor.

(** A [NodeJS.Timeout] is an object; what tells two of them apart is which
    [setInterval] call made them, here the number of that call. *)
Abbreviation Timeout := nat (only parsing).

Section Monitor.

Variable config : Config.
(** The type of the [callback] argument, [(metrics) => void]. *)
Variable Callback : Type.

(** An interval timer of the runtime: the delay [setInterval] was given, and
    the [url] and [callback] its tick function closes over. *)
Record Timer : Type := {
  delay : Z;
  tick_url : string;
  tick_callback : Callback
}.

(** The registry together with the part of the runtime it acts on:
    - [intervals]: the private map of the class;
    - [timers]: the interval timers that are armed;
    - [next_timeout]: how many [setInterval] calls there have been;
    - [inflight]: the dispatcher runs that have started and not ended, each
      with the callback that awaits its result;
    - [calls]: the callback invocations so far, oldest first. *)
Record Runtime : Type := {
  intervals : gmap string nat;
  timers : gmap nat Timer;
  next_timeout : nat;
  inflight : list (Async SocialMetrics * Callback);
  calls : list (Callback * SocialMetrics)
}.

(** [new MetricsMonitor()] in a fresh process. *)
Definition init : Runtime :=
  {| intervals := ∅; timers := ∅; next_timeout := 0;
     inflight := []; calls := [] |}.

(** [clearInterval(interval)] *)
Definition clearInterval (interval : Timeout) (st : Runtime) : Runtime :=
  {| intervals := intervals st;
     timers := delete interval (timers st);
     next_timeout := next_timeout st;
     inflight := inflight st;
     calls := calls st |}.

(** [setInterval(tick, intervalMs)]: arms a new timer and returns it. *)
Definition setInterval (t : Timer) (st : Runtime) : Timeout * Runtime :=
  (next_timeout st,
   {| intervals := intervals st;
      timers := <[next_timeout st := t]> (timers st);
      next_timeout := S (next_timeout st);
      inflight := inflight st;
      calls := calls st |}).

(** A call of the dispatcher whose result [callback] will receive:
    [getSocialMetrics(url).then(callback)], and the body of a tick. *)
Definition spawn (url : string) (callback : Callback) (st : Runtime) : Runtime :=
  {| intervals := intervals st;
     timers := timers st;
     next_timeout := next_timeout st;
     inflight := inflight st ++ [(getSocialMetrics config url, callback)];
     calls := calls st |}.

Definition set_intervals (m : gmap string nat) (st : Runtime) : Runtime :=
  {| intervals := m;
     timers := timers st;
     next_timeout := next_timeout st;
     inflight := inflight st;
     calls := calls st |}.

(** A [Timeout] object is truthy, so [if (interval)] asks whether the map
    has an entry. *)
Definition stopMonitoring (url : string) (st : Runtime) : Runtime :=
  match intervals st !! url with
  | Some interval =>
      let st := clearInterval interval st in
      set_intervals (delete url (intervals st)) st
  | None => st
  end.

(** [intervalMs] is [None] when the caller passes [undefined], which the
    default parameter value replaces by 300000. *)
Definition startMonitoring (url : string) (intervalMs : option Z)
    (callback : Callback) (st : Runtime) : Runtime :=
  let intervalMs := default 300000%Z intervalMs in
  let st := stopMonitoring url st in
  let st := spawn url callback st in
  let '(interval, st) :=
    setInterval {| delay := intervalMs; tick_url := url;
                   tick_callback := callback |} st in
  set_intervals (<[url := interval]> (intervals st)) st.

Definition stopAllMonitoring (st : Runtime) : Runtime :=
  let st :=
    map_fold (fun _ interval st => clearInterval interval st) st (intervals st) in
  set_intervals ∅ st.

(** The runtime fires the timer [interval], if it is armed. *)
Definition tick (interval : Timeout) (st : Runtime) : Runtime :=
  match timers st !! interval with
  | Some t => spawn (tick_url t) (tick_callback t) st
  | None => st
  end.

(** The world answers the dispatcher run at position [j] of [inflight]; when
    that ends the run with a record, its callback is invoked on it. *)
Definition advance (j : nat) (a : answer) (st : Runtime) : Runtime :=
  match inflight st !! j with
  | Some (t, callback) =>
      match resume t a with
      | Some (Ret r) =>
          {| intervals := intervals st; timers := timers st;
             next_timeout := next_timeout st;
             inflight := delete j (inflight st);
             calls := calls st ++ [(callback, r)] |}
      | Some (Throw _) =>
          {| intervals := intervals st; timers := timers st;
             next_timeout := next_timeout st;
             inflight := delete j (inflight st);
             calls := calls st |}
      | Some t' =>
          {| intervals := intervals st; timers := timers st;
             next_timeout := next_timeout st;
             inflight := <[j := (t', callback)]> (inflight st);
             calls := calls st |}
      | None => st
      end
  | None => st
  end.

Fixpoint advance_all (j : nat) (answers : list answer) (st : Runtime) : Runtime :=
  match answers with
  | [] => st
  | a :: rest => advance_all j rest (advance j a st)
  end.

(** Every state the registry and its timers can get into. *)
Inductive reachable : Runtime -> Prop :=
| reach_init : reachable init
| reach_start : forall st url intervalMs callback,
    reachable st -> reachable (startMonitoring url intervalMs callback st)
| reach_stop : forall st url,
    reachable st -> reachable (stopMonitoring url st)
| reach_stopAll : forall st,
    reachable st -> reachable (stopAllMonitoring st)
| reach_tick : forall st interval,
    reachable st -> reachable (tick interval st)
| reach_advance : forall st j a,
    reachable st -> reachable (advance j a st).

(** The armed timers that poll [url]. *)
Definition timers_for (url : string) (st : Runtime) : list (nat * Timer) :=
  filter (fun p => tick_url (snd p) = url) (map_to_list (timers st)).

(** The registry and the timers agree: every entry of the map names an
    armed timer that polls its URL, every armed timer is the entry of the
    URL it polls, and every timer was made by an earlier [setInterval]. *)
Definition consistent (st : Runtime) : Prop :=
  (forall url interval,
     intervals st !! url = Some interval ->
     exists t, timers st !! interval = Some t /\ tick_url t = url) /\
  (forall interval t,
     timers st !! interval = Some t ->
     intervals st !! tick_url t = Some interval) /\
  (forall interval,
     is_Some (timers st !! interval) -> interval < next_timeout st).

End Monitor.

Arguments delay {Callback} _.
Arguments tick_url {Callback} _.
Arguments tick_callback {Callback} _.
Arguments intervals {Callback} _.
Arguments timers {Callback} _.
Arguments next_timeout {Callback} _.
Arguments inflight {Callback} _.
Arguments calls {Callback} _.
Arguments init {Callback}.
Arguments clearInterval {Callback} interval st.
Arguments setInterval {Callback} t st.
Arguments spawn config {Callback} url callback st.
Arguments set_intervals {Callback} m st.
Arguments stopMonitoring {Callback} url st.
Arguments startMonitoring config {Callback} url intervalMs callback st.
Arguments stopAllMonitoring {Callback} st.
Arguments tick config {Callback} interval st.
Arguments advance {Callback} j a st.
Arguments advance_all {Callback} j answers st.
Arguments reachable config {Callback} _.
Arguments timers_for {Callback} url st.
Arguments consistent {Callback} st.

End MetricsMonitor.

(** ** What the theorems speak of *)

(** Every way [t] can end: with a value that satisfies [P], or with a throw
    that satisfies [Q], whatever the world answers. *)
Fixpoint ends {A : Type} (P : A -> Prop) (Q : js_exn -> Prop) (t : Async A)
    : Prop :=
  match t with
  | Ret a => P a
  | Throw e => Q e
  | AwaitFetch _ k => forall o, ends P Q (k o)
  | AwaitJson _ k => forall o, ends P Q (k o)
  | NewDate k => forall iso, ends P Q (k iso)
  end.

(** [t] never throws, and every value it ends with satisfies [P]. *)
Definition always {A : Type} (P : A -> Prop) (t : Async A) : Prop :=
  ends P (fun _ => False) t.

(** The message the [catch] blocks read off what was thrown. *)
Definition message_of (e : js_exn) : string :=
  match e with
  | ErrorObj _ message => message
  | NonError _ => "Unknown error"
  end.

(** The failure record of the specification. *)
Definition failure_record (platform url now message : string) : SocialMetrics :=
  {| platform := platform; url := url; metrics := no_metrics;
     timestamp := now; success := false; error := Some message |}.

(** The shape every record of a fetcher has. *)
Definition well_shaped (p u : string) (r : SocialMetrics) : Prop :=
  platform r = p /\ url r = u /\
  (success r = false -> metrics r = no_metrics /\ is_Some (error r)) /\
  (success r = true -> error r = None).

(** The contract of one fetcher, [try_] being the body of its [try]. *)
Definition fetcher_contract (p : string)
    (try_ fetcher : string -> Async SocialMetrics) : Prop :=
  forall u : string,
    always (well_shaped p u) (fetcher u) /\
    (forall w e, run w (try_ u) = Thrown e ->
       run w (fetcher u) = Value (failure_record p u (clock w) (message_of e))) /\
    (forall w r, run w (try_ u) = Value r ->
       run w (fetcher u) = Value r /\ success r = true).

(** What the body of a [try] block ends with when it does not throw. *)
Definition success_shape (p u : string) (r : SocialMetrics) : Prop :=
  platform r = p /\ url r = u /\ success r = true /\ error r = None.

(** The fixed message of the dispatcher for a URL of no known platform. *)
Definition unsupported : string :=
  "Unsupported platform. Supported: Reddit, Quora, Twitter/X".

(** The relation the matcher computes: [matches icase r s c s1 c1] when [r]
    can consume the text between [s] and its suffix [s1], taking the groups
    from [c] to [c1]. *)
Inductive matches (icase : bool)
  : regex -> string -> captures -> string -> captures -> Prop :=
| matches_Eps s c : matches icase Eps s c s c
| matches_Lit p d s c :
    unit_matches icase p d = true -> matches icase (Lit p) (String d s) c s c
| matches_Cls p d s c :
    p d = true -> matches icase (Cls p) (String d s) c s c
| matches_Seq r1 r2 s c s1 c1 s2 c2 :
    matches icase r1 s c s1 c1 -> matches icase r2 s1 c1 s2 c2 ->
    matches icase (Seq r1 r2) s c s2 c2
| matches_Alt_l r1 r2 s c s1 c1 :
    matches icase r1 s c s1 c1 -> matches icase (Alt r1 r2) s c s1 c1
| matches_Alt_r r1 r2 s c s1 c1 :
    matches icase r2 s c s1 c1 -> matches icase (Alt r1 r2) s c s1 c1
| matches_Star_stop r s c : matches icase (Star r) s c s c
| matches_Star_more r s c s1 c1 s2 c2 :
    matches icase r s c s1 c1 -> matches icase (Star r) s1 c1 s2 c2 ->
    matches icase (Star r) s c s2 c2
| matches_Group n r s c s1 c1 :
    matches icase r s c s1 c1 ->
    matches icase (Group n r) s c s1 (<[n := Some (consumed s s1)]> c1).



(** A payload of the search proxy without an organic result: an object
    whose [organic] is missing, null or the empty array. *)
Definition no_organic (data : value) : Prop :=
  exists fields, data = VObj fields /\
    (field fields "organic" = VUndefined \/ field fields "organic" = VNull \/
     field fields "organic" = VArr []).

(** The world in which every request is answered 200 OK with the JSON
    [payload], at the time [iso]. *)
Definition answering (payload : value) (iso : string) : Upstream :=
  {| on_fetch := fun _ => Value {| ok := true; statusText := "OK" |};
     on_json := fun _ => Value payload;
     clock := iso |}.


(** The payload shape the Reddit fetcher reads: the post [post] as the
    [data] of the first child of the [data] of the first listing. *)
Definition reddit_listing (post : value) : value :=
  VArr [VObj [("data", VObj [("children", VArr [VObj [("data", post)]])])]].

(** The Reddit URL of the specification's example. *)
Definition reddit_url : string :=
  "https://reddit.com/r/programming/comments/abc123/title".

(** How a computation has ended once the world [w] has answered it. *)
Definition final {A : Type} (w : Upstream) (t : Async A) : Async A :=
  match run w t with
  | Value a => Ret a
  | Thrown e => Throw e
  end.

(** What the store is asked for: a non-empty argument asks for exactly
    that text, a missing or empty one for anything. *)
Definition asks_for (arg : option string) (actual : string) : bool :=
  match arg with
  | Some (String c rest) => String.eqb actual (String c rest)
  | _ => true
  end.




(** ** Concrete inputs for the examples *)

Definition example_config : Config := {| serper := {| apiKey := "serper-key" |} |}.

Definition quora_url : string := "https://www.quora.com/What-is-Rocq".
Definition tweet_url : string := "https://x.com/someone/status/12345".
Definition other_url : string := "https://example.com/not-social".

(** The world without a network: every [fetch] rejects. *)
Definition offline (iso : string) : Upstream :=
  {| on_fetch := fun _ => Thrown (ErrorObj "TypeError" "fetch failed");
     on_json := fun _ => Value VNull;
     clock := iso |}.


Definition reddit_post : value :=
  VObj [("ups", VNum 42); ("downs", VNum 3); ("num_comments", VNum 7);
        ("total_awards_received", VNum 1)].

(** A batch whose first URL fails and whose second succeeds, answered with
    the second call ending before the first. *)
Definition bulk_urls : list string := [other_url; reddit_url].

Definition late_first : schedule :=
  [(1%nat, FetchSettled (Value {| ok := true; statusText := "OK" |}));
   (1%nat, JsonSettled (Value (reddit_listing reddit_post)));
   (1%nat, DateRead "2025-01-01T00:00:01.000Z");
   (0%nat, DateRead "2025-01-01T00:00:02.000Z")].

(** A metrics record as the route layer would store it. *)
Definition stored (u iso : string) : SocialMetrics :=
  {| platform := "reddit"; url := u; metrics := no_metrics;
     timestamp := iso; success := true; error := None |}.

(** ** Histories of the registry

    What can happen to the registry and its timers, one event at a time. *)

Section MonitorHistory.

Variable config : Config.
Context {Callback : Type}.

Inductive action : Type :=
| Start (url : string) (intervalMs : option Z) (callback : Callback)
| Stop (url : string)
| StopAll
| Tick (interval : nat)
| Advance (j : nat) (a : answer).

Definition perform (a : action) (st : MetricsMonitor.Runtime Callback)
    : MetricsMonitor.Runtime Callback :=
  match a with
  | Start url intervalMs callback =>
      MetricsMonitor.startMonitoring config url intervalMs callback st
  | Stop url => MetricsMonitor.stopMonitoring url st
  | StopAll => MetricsMonitor.stopAllMonitoring st
  | Tick interval => MetricsMonitor.tick config interval st
  | Advance j a => MetricsMonitor.advance j a st
  end.

Definition perform_all (actions : list action)
    (st : MetricsMonitor.Runtime Callback) : MetricsMonitor.Runtime Callback :=
  fold_left (fun st a => perform a st) actions st.

End MonitorHistory.

Arguments action Callback : clear implicits.

(** ** Requests a computation can issue *)

(** [t] issues no request, whatever the world answers. *)
Fixpoint fetchless {A : Type} (t : Async A) : Prop :=
  match t with
  | Ret _ | Throw _ => True
  | AwaitFetch _ _ => False
  | AwaitJson _ k => forall o, fetchless (k o)
  | NewDate k => forall iso, fetchless (k iso)
  end.



(** Every code unit of [s] satisfies [p]. *)
Fixpoint all_units (p : ascii -> bool) (s : string) : bool :=
  match s with
  | EmptyString => true
  | String c rest => p c && all_units p rest
  end.








(** The first code unit of [s], if any, satisfies [p]. *)
Definition starts_with (p : ascii -> bool) (s : string) : bool :=
  match s with
  | EmptyString => false
  | String c _ => p c
  end.

(** ** Histories of the metrics store *)

(** The store after the inserts given, oldest first, each with the time
    the clock read at the insert. *)
Definition replay (inserts : list (Z * SocialMetrics)) : MemStorage.Store :=
  fold_left (fun st p => fst (MemStorage.createSocialMetric (fst p) (snd p) st))
    inserts MemStorage.empty.

(** The row the [i]-th insert (from 0) makes. *)
Definition nth_row (i : nat) (p : Z * SocialMetrics) : MemStorage.SocialMetric :=
  {| MemStorage.id := Z.of_nat i + 1;
     MemStorage.row := snd p;
     MemStorage.createdAt := Some (fst p) |}.

(** ** The other tables of [MemStorage]

    Users, alerts, search results and generated replies.  Their row types
    come from [@shared/schema] and are erased at run time: a row is a plain
    object, here the finite map of its properties.  A [Date] is kept as its
    time value. *)

Module Tables.

Abbreviation object := (gmap string value).

(** [o.key], [undefined] when [o] has no such property. *)
Definition prop (o : object) (key : string) : value :=
  default VUndefined (o !! key).

(** [o.key ?? fallback] *)
Definition coalesce (o : object) (key : string) (fallback : value) : value :=
  if nullish (prop o key) then fallback else prop o key.

(** [v === s] for a string [s]. *)
Definition is_string (v : value) (s : string) : bool :=
  match v with
  | VStr x => String.eqb x s
  | _ => false
  end.

(** A [Map<number, object>], in insertion order. *)
Abbreviation table := (list (Z * object)).

Fixpoint map_get (k : Z) (m : table) : option object :=
  match m with
  | [] => None
  | (k', v) :: rest => if (k' =? k)%Z then Some v else map_get k rest
  end.

Fixpoint map_set (k : Z) (v : object) (m : table) : table :=
  match m with
  | [] => [(k, v)]
  | (k', v') :: rest =>
      if (k' =? k)%Z then (k, v) :: rest else (k', v') :: map_set k v rest
  end.

(** [map.delete(k)]: the map without the key, and whether it was there. *)
Fixpoint map_delete (k : Z) (m : table) : table * bool :=
  match m with
  | [] => ([], false)
  | (k', v) :: rest =>
      if (k' =? k)%Z then (rest, true)
      else let '(rest', found) := map_delete k rest in ((k', v) :: rest', found)
  end.

Definition map_values (m : table) : list object := map snd m.

Record Storage : Type := {
  users : table;
  alerts : table;
  searchResults : table;
  generatedReplies : table;
  currentUserId : Z;
  currentAlertId : Z;
  currentSearchResultId : Z;
  currentReplyId : Z
}.

(** The tables of a [new MemStorage()]. *)
Definition empty : Storage :=
  {| users := []; alerts := []; searchResults := []; generatedReplies := [];
     currentUserId := 1; currentAlertId := 1; currentSearchResultId := 1;
     currentReplyId := 1 |}.

Definition getUser (id : Z) (st : Storage) : option object :=
  map_get id (users st).

(** [Array.from(values).find(user => user.username === username)] *)
Definition getUserByUsername (username : string) (st : Storage) : option object :=
  List.find (fun user => is_string (prop user "username") username)
    (map_values (users st)).

Definition createUser (insertUser : object) (st : Storage) : Storage * object :=
  let id := currentUserId st in
  let user := <["id" := VNum id]> insertUser in
  ({| users := map_set id user (users st);
      alerts := alerts st;
      searchResults := searchResults st;
      generatedReplies := generatedReplies st;
      currentUserId := (id + 1)%Z;
      currentAlertId := currentAlertId st;
      currentSearchResultId := currentSearchResultId st;
      currentReplyId := currentReplyId st |},
   user).

Definition getAlerts (st : Storage) : list object := map_values (alerts st).

Definition getAlert (id : Z) (st : Storage) : option object :=
  map_get id (alerts st).

Definition set_alerts (m : table) (st : Storage) : Storage :=
  {| users := users st;
     alerts := m;
     searchResults := searchResults st;
     generatedReplies := generatedReplies st;
     currentUserId := currentUserId st;
     currentAlertId := currentAlertId st;
     currentSearchResultId := currentSearchResultId st;
     currentReplyId := currentReplyId st |}.

(** [now] is what [new Date()] reads at the call. *)
Definition createAlert (now : Z) (insertAlert : object) (st : Storage)
    : Storage * object :=
  let id := currentAlertId st in
  let alert :=
    <["lastRun" := VNull]>
    (<["createdAt" := VNum now]>
    (<["id" := VNum id]>
    (<["isActive" := VBool true]>
    (<["webhookUrl" := coalesce insertAlert "webhookUrl" VNull]>
    (<["reportUrl" := coalesce insertAlert "reportUrl" VNull]>
    (<["email" := coalesce insertAlert "email" VNull]>
    (<["emailNotifications" :=
         coalesce insertAlert "emailNotifications" (VBool true)]>
    (<["includeNegativeSentiment" :=
         coalesce insertAlert "includeNegativeSentiment" (VBool false)]>
    (<["minOpportunityScore" :=
         coalesce insertAlert "minOpportunityScore" (VStr "medium")]>
    (<["maxResults" := coalesce insertAlert "maxResults" (VNum 10)]>
       insertAlert)))))))))) in
  ({| users := users st;
      alerts := map_set id alert (alerts st);
      searchResults := searchResults st;
      generatedReplies := generatedReplies st;
      currentUserId := currentUserId st;
      currentAlertId := (id + 1)%Z;
      currentSearchResultId := currentSearchResultId st;
      currentReplyId := currentReplyId st |},
   alert).

(** [{ ...existingAlert, ...alertUpdate }]: the properties of the update
    win. *)
Definition updateAlert (id : Z) (alertUpdate : object) (st : Storage)
    : Storage * option object :=
  match map_get id (alerts st) with
  | None => (st, None)
  | Some existingAlert =>
      let updatedAlert := alertUpdate ∪ existingAlert in
      (set_alerts (map_set id updatedAlert (alerts st)) st, Some updatedAlert)
  end.

Definition deleteAlert (id : Z) (st : Storage) : Storage * bool :=
  let '(m, found) := map_delete id (alerts st) in (set_alerts m st, found).

(** [type ? results.filter(r => r.type === type) : results] *)
Definition getSearchResults (type : option string) (st : Storage) : list object :=
  let results := map_values (searchResults st) in
  match type with
  | Some (String c rest) =>
      List.filter (fun r => is_string (prop r "type") (String c rest)) results
  | _ => results
  end.

Definition createSearchResult (now : Z) (insertResult : object) (st : Storage)
    : Storage * object :=
  let id := currentSearchResultId st in
  let result := <["createdAt" := VNum now]> (<["id" := VNum id]> insertResult) in
  ({| users := users st;
      alerts := alerts st;
      searchResults := map_set id result (searchResults st);
      generatedReplies := generatedReplies st;
      currentUserId := currentUserId st;
      currentAlertId := currentAlertId st;
      currentSearchResultId := (id + 1)%Z;
      currentReplyId := currentReplyId st |},
   result).

(** [new Date(d).getTime()] for the creation date of a row the store made. *)
Definition time_of (row : object) : Z :=
  match prop row "createdAt" with
  | VNum t => t
  | _ => 0%Z
  end.

(** A stable sort by a comparator, as [Array.prototype.sort] is. *)
Fixpoint insert_by (cmp : object -> object -> Z) (x : object)
    (l : list object) : list object :=
  match l with
  | [] => [x]
  | y :: rest =>
      if (cmp x y <=? 0)%Z then x :: y :: rest else y :: insert_by cmp x rest
  end.

Fixpoint sort_by (cmp : object -> object -> Z) (l : list object) : list object :=
  match l with
  | [] => []
  | x :: rest => insert_by cmp x (sort_by cmp rest)
  end.

(** The comparator of the listings: the later date first. *)
Definition newest_first (a b : object) : Z := (time_of b - time_of a)%Z.

Definition getGeneratedReplies (st : Storage) : list object :=
  sort_by newest_first (map_values (generatedReplies st)).

Definition createGeneratedReply (now : Z) (insertReply : object) (st : Storage)
    : Storage * object :=
  let id := currentReplyId st in
  let reply :=
    <["createdAt" := VNum now]>
    (<["id" := VNum id]>
    (<["feedback" := coalesce insertReply "feedback" VNull]>
    (<["model" := coalesce insertReply "model" (VStr "gpt-4o")]>
    (<["aiProvider" := coalesce insertReply "aiProvider" (VStr "openai")]>
    (<["creativity" := coalesce insertReply "creativity" (VStr "0.7")]>
    (<["brandUrl" := coalesce insertReply "brandUrl" VNull]>
    (<["brandContext" := coalesce insertReply "brandContext" VNull]>
    (<["brandName" := coalesce insertReply "brandName" VNull]>
       insertReply)))))))) in
  ({| users := users st;
      alerts := alerts st;
      searchResults := searchResults st;
      generatedReplies := map_set id reply (generatedReplies st);
      currentUserId := currentUserId st;
      currentAlertId := currentAlertId st;
      currentSearchResultId := currentSearchResultId st;
      currentReplyId := (id + 1)%Z |},
   reply).

(** The calls that change the tables, and a history of them. *)
Inductive call : Type :=
| CreateUser (insertUser : object)
| CreateAlert (now : Z) (insertAlert : object)
| UpdateAlert (id : Z) (alertUpdate : object)
| DeleteAlert (id : Z)
| CreateSearchResult (now : Z) (insertResult : object)
| CreateGeneratedReply (now : Z) (insertReply : object).

Definition perform (c : call) (st : Storage) : Storage :=
  match c with
  | CreateUser o => fst (createUser o st)
  | CreateAlert now o => fst (createAlert now o st)
  | UpdateAlert id o => fst (updateAlert id o st)
  | DeleteAlert id => fst (deleteAlert id st)
  | CreateSearchResult now o => fst (createSearchResult now o st)
  | CreateGeneratedReply now o => fst (createGeneratedReply now o st)
  end.

Definition history (calls : list call) (st : Storage) : Storage :=
  fold_left (fun st c => perform c st) calls st.

(** The keys of a table are distinct and below its counter. *)
Definition keys_below (n : Z) (m : table) : Prop :=
  NoDup (map fst m) /\ forall k, In k (map fst m) -> (k < n)%Z.

Definition well_keyed (st : Storage) : Prop :=
  keys_below (currentUserId st) (users st) /\
  keys_below (currentAlertId st) (alerts st) /\
  keys_below (currentSearchResultId st) (searchResults st) /\
  keys_below (currentReplyId st) (generatedReplies st).

(** The rows of a table carry their key and a creation date. *)
Definition stamped (m : table) : Prop :=
  forall k r, In (k, r) m ->
    prop r "id" = VNum k /\ exists t, prop r "createdAt" = VNum t.

End Tables.

(** How a fetcher of platform [p] reports a failing upstream on the URL [u]:
    [r] is its outcome when [req] was its request and [api] the name in its
    status message. *)
Definition upstream_report (w : Upstream) (u p api : string) (req : Request)
    (r : Outcome SocialMetrics) : Prop :=
  match on_fetch w req with
  | Thrown e => r = Value (failure_record p u (clock w) (message_of e))
  | Value resp =>
      if ok resp then
        match on_json w resp with
        | Thrown e => r = Value (failure_record p u (clock w) (message_of e))
        | Value _ => True
        end
      else
        r = Value (failure_record p u (clock w)
                     (api ++ " API error: " ++ statusText resp))
  end.

(** ** The metrics page

    The functions of the page component that decide what is sent to the
    server: the text of a box is trimmed, split into lines and checked
    before any request.  A call ends in a toast or in a POST. *)

Module Page.

(** [s.split('\n')] *)
Fixpoint split_lines (s : string) : list string :=
  match s with
  | EmptyString => [EmptyString]
  | String c rest =>
      if (unit_code c =? 10)%nat then EmptyString :: split_lines rest
      else match split_lines rest with
           | line :: more => String c line :: more
           | [] => [String c EmptyString]
           end
  end.

Fixpoint trimStart (s : string) : string :=
  match s with
  | EmptyString => EmptyString
  | String c rest => if space c then trimStart rest else s
  end.

Fixpoint trimEnd (s : string) : string :=
  match s with
  | EmptyString => EmptyString
  | String c rest =>
      match trimEnd rest with
      | EmptyString => if space c then EmptyString else String c EmptyString
      | kept => String c kept
      end
  end.

(** [s.trim()] *)
Definition trim (s : string) : string := trimEnd (trimStart s).

(** [Boolean(s)] for a string. *)
Definition Boolean (s : string) : bool :=
  match s with
  | EmptyString => false
  | String _ _ => true
  end.

(** What a call does first: an error toast with its description, or a POST
    of URLs to a path of the API. *)
Inductive step : Type :=
| Toast (description : string)
| Post (path : string) (urls : list string).

Definition fetchSingleMetrics (url : string) : step :=
  if negb (Boolean (trim url)) then Toast "Please enter a URL"
  else Post "/api/metrics/get" [trim url].

Definition fetchBulkMetrics (bulkUrls : string) : step :=
  let urls := List.filter Boolean (map trim (split_lines bulkUrls)) in
  if (length urls =? 0)%nat then Toast "Please enter at least one URL"
  else if (20 <? length urls)%nat then Toast "Maximum 20 URLs allowed"
  else Post "/api/metrics/bulk" urls.

(** The last code unit of [s], if any, satisfies [p]. *)
Fixpoint ends_with (p : ascii -> bool) (s : string) : bool :=
  match s with
  | EmptyString => false
  | String c EmptyString => p c
  | String _ rest => ends_with p rest
  end.

Definition not_space (c : ascii) : bool := negb (space c).
Definition not_newline (c : ascii) : bool := negb (unit_code c =? 10)%nat.

(** [u] occurs in [s]. *)
Definition occurs_in (u s : string) : Prop :=
  exists before after, s = before ++ u ++ after.

(** A string the page may send as a URL: not empty, no white space at
    either end, on one line. *)
Definition sendable (u : string) : Prop :=
  starts_with not_space u = true /\ ends_with not_space u = true /\
  all_units not_newline u = true.

End Page.

(** * Theorems *)

(** ** Computations: ends, runs and handlers *)

Section AsyncFacts.

Context {A B : Type}.

Lemma ends_mono (P P' : A -> Prop) (Q Q' : js_exn -> Prop) (t : Async A) :
  (forall a, P a -> P' a) -> (forall e, Q e -> Q' e) ->
  ends P Q t -> ends P' Q' t.
Proof.
  intros HP HQ. induction t as [a|e|req k IH|resp k IH|k IH]; simpl; auto.
Qed.

Lemma ends_bind (P : A -> Prop) (P' : B -> Prop) (Q : js_exn -> Prop)
    (t : Async A) (f : A -> Async B) :
  ends P Q t -> (forall a, P a -> ends P' Q (f a)) -> ends P' Q (bind t f).
Proof.
  intros Ht Hf. induction t as [a|e|req k IH|resp k IH|k IH]; simpl in *; auto.
Qed.

Lemma ends_try_catch (P : A -> Prop) (Q Q' : js_exn -> Prop)
    (t : Async A) (h : js_exn -> Async A) :
  ends P Q' t -> (forall e, Q' e -> ends P Q (h e)) -> ends P Q (try_catch t h).
Proof.
  intros Ht Hh. induction t as [a|e|req k IH|resp k IH|k IH]; simpl in *; auto.
Qed.

Lemma run_ends (P : A -> Prop) (Q : js_exn -> Prop) (w : Upstream) (t : Async A) :
  ends P Q t ->
  match run w t with Value a => P a | Thrown e => Q e end.
Proof.
  induction t as [a|e|req k IH|resp k IH|k IH]; simpl; intros H; auto.
  all: apply IH, H.
Qed.

Lemma run_bind (w : Upstream) (t : Async A) (f : A -> Async B) :
  run w (bind t f) =
  match run w t with Value a => run w (f a) | Thrown e => Thrown e end.
Proof.
  induction t as [a|e|req k IH|resp k IH|k IH]; simpl; auto.
Qed.

Lemma run_try_catch (w : Upstream) (t : Async A) (h : js_exn -> Async A) :
  run w (try_catch t h) =
  match run w t with Value a => Value a | Thrown e => run w (h e) end.
Proof.
  induction t as [a|e|req k IH|resp k IH|k IH]; simpl; auto.
Qed.

Lemma resume_ends (P : A -> Prop) (Q : js_exn -> Prop) (t t' : Async A)
    (a : answer) :
  ends P Q t -> resume t a = Some t' -> ends P Q t'.
Proof.
  destruct t, a; simpl; intros H E; inversion E; subst; auto.
Qed.

Lemma feed_ends (P : A -> Prop) (Q : js_exn -> Prop) (answers : list answer) :
  forall t t' : Async A,
    ends P Q t -> feed t answers = Some t' -> ends P Q t'.
Proof.
  induction answers as [|a rest IH]; simpl; intros t t' H E.
  - by inversion E; subst.
  - destruct (resume t a) as [t1|] eqn:R; [|discriminate].
    eapply IH; [|exact E]. eapply resume_ends; eauto.
Qed.

End AsyncFacts.

Lemma always_run {A : Type} (P : A -> Prop) (w : Upstream) (t : Async A) :
  always P t -> exists a, run w t = Value a /\ P a.
Proof.
  intros H. apply (run_ends _ _ w) in H.
  destruct (run w t) as [a|e]; [eauto | contradiction].
Qed.

Lemma ends_trivial {A : Type} (t : Async A) :
  ends (fun _ => True) (fun _ => True) t.
Proof. induction t; simpl; auto. Qed.

(** ** The fetchers *)

Ltac ends_body :=
  unfold mbind, Async_bind;
  repeat match goal with
    | |- ends _ _ (bind _ _) =>
        apply ends_bind with (P := fun _ => True);
        [apply ends_trivial | intros ? _]
    | |- ends _ _ (if ?b then _ else _) => destruct b
    | |- ends _ _ (match ?x with _ => _ end) => destruct x
    | |- ends _ _ (throw_Error _) => exact I
    | |- ends _ _ (Ret _) => simpl; unfold success_shape; simpl; auto
    end.

Section FetcherFacts.

Variable config : Config.

Lemma getRedditMetrics_try_ends (u : string) :
  ends (success_shape "reddit" u) (fun _ => True) (getRedditMetrics_try u).
Proof. unfold getRedditMetrics_try. ends_body. Qed.

Lemma getQuoraMetrics_try_ends (u : string) :
  ends (success_shape "quora" u) (fun _ => True) (getQuoraMetrics_try config u).
Proof. unfold getQuoraMetrics_try. ends_body. Qed.

Lemma getTwitterMetrics_try_ends (u : string) :
  ends (success_shape "twitter" u) (fun _ => True)
    (getTwitterMetrics_try config u).
Proof. unfold getTwitterMetrics_try. ends_body. Qed.

Lemma run_failure (w : Upstream) (p u : string) (e : js_exn) :
  run w (failure p u e) = Value (failure_record p u (clock w) (message_of e)).
Proof. by destruct e. Qed.

Lemma failure_always (p u : string) (e : js_exn) :
  always (well_shaped p u) (failure p u e).
Proof.
  intros iso. simpl. unfold well_shaped. simpl.
  repeat split; eauto; discriminate.
Qed.

Lemma success_well_shaped (p u : string) (r : SocialMetrics) :
  success_shape p u r -> well_shaped p u r.
Proof.
  intros (Hp & Hu & Hs & He). unfold well_shaped.
  split; [done|]. split; [done|]. split; intros Hf; congruence.
Qed.

(** A body wrapped in the shared [catch] block meets the contract. *)
Lemma guarded_contract (p : string) (try_ : string -> Async SocialMetrics) :
  (forall u, ends (success_shape p u) (fun _ => True) (try_ u)) ->
  fetcher_contract p try_ (fun u => try_catch (try_ u) (failure p u)).
Proof.
  intros Hbody u. split; [|split].
  - apply ends_try_catch with (Q' := fun _ => True).
    + eapply ends_mono; [| |apply Hbody]; auto using success_well_shaped.
    + intros e _. apply failure_always.
  - intros w e E. by rewrite run_try_catch, E, run_failure.
  - intros w r E. rewrite run_try_catch, E. split; [done|].
    pose proof (run_ends _ _ w _ (Hbody u)) as H. rewrite E in H. apply H.
Qed.

End FetcherFacts.

(** [includes] is substring containment. *)
Lemma append_String (c : ascii) (p q : string) :
  String c p ++ q = String c (p ++ q).
Proof. reflexivity. Qed.

Lemma append_Empty (q : string) : EmptyString ++ q = q.
Proof. reflexivity. Qed.

Lemma prefix_iff (p s : string) :
  String.prefix p s = true <-> exists post, s = p ++ post.
Proof.
  revert s. induction p as [|c p IH]; intros s; simpl.
  - split; [intros _; by exists s | by destruct s].
  - destruct s as [|d s]; simpl.
    + split; [discriminate | intros [post E]; discriminate].
    + destruct (ascii_dec c d) as [->|Hne].
      * rewrite IH. split; intros [post E]; exists post;
          rewrite append_String in *; congruence.
      * split; [discriminate|].
        intros [post E]. rewrite append_String in E. congruence.
Qed.

Lemma includes_iff (s needle : string) :
  includes s needle = true <-> exists pre post, s = pre ++ needle ++ post.
Proof.
  induction s as [|c s IH].
  - change (includes EmptyString needle)
      with (String.prefix needle EmptyString || false).
    rewrite orb_false_r, prefix_iff. split.
    + intros [post E]. by exists EmptyString, post.
    + intros (pre & post & E). destruct pre as [|d pre].
      * rewrite append_Empty in E. eauto.
      * rewrite append_String in E. discriminate.
  - change (includes (String c s) needle)
      with (String.prefix needle (String c s) || includes s needle).
    rewrite orb_true_iff, prefix_iff, IH. split.
    + intros [[post E]|(pre & post & E)].
      * by exists EmptyString, post.
      * exists (String c pre), post. rewrite append_String. congruence.
    + intros (pre & post & E). destruct pre as [|d pre].
      * left. rewrite append_Empty in E. eauto.
      * right. rewrite append_String in E. exists pre, post. congruence.
Qed.

Section Dispatcher.

Variable config : Config.

(** C2. Each of the three platform fetchers never throws, whatever the
    upstream does: every way it can end is a record of its own platform and
    of the original URL in which [success = false] comes with empty metrics
    and an error, and [success = true] with no error; a throw inside the
    attempt becomes the failure record carrying the thrown message and the
    time of the catch, and an attempt that ends normally is returned as it
    is, with [success = true]. *)
Theorem fetchers_never_throw :
  fetcher_contract "reddit" getRedditMetrics_try getRedditMetrics /\
  fetcher_contract "quora" (getQuoraMetrics_try config) (getQuoraMetrics config) /\
  fetcher_contract "twitter" (getTwitterMetrics_try config)
    (getTwitterMetrics config).
Proof.
  split; [|split].
  - apply guarded_contract, getRedditMetrics_try_ends.
  - apply guarded_contract, getQuoraMetrics_try_ends.
  - apply guarded_contract, getTwitterMetrics_try_ends.
Qed.

Lemma fetcher_url (p u : string) (t : Async SocialMetrics) :
  always (well_shaped p u) t -> always (fun r => url r = u) t.
Proof. apply ends_mono; [by intros r (_ & H & _) | auto]. Qed.

Lemma getSocialMetrics_url (u : string) :
  always (fun r => url r = u) (getSocialMetrics config u).
Proof.
  destruct (guarded_contract "reddit" _ getRedditMetrics_try_ends u) as [Hr _].
  destruct (guarded_contract "quora" _ (getQuoraMetrics_try_ends config) u)
    as [Hq _].
  destruct (guarded_contract "twitter" _ (getTwitterMetrics_try_ends config) u)
    as [Ht _].
  unfold getSocialMetrics.
  repeat match goal with |- always _ (if ?b then _ else _) => destruct b end;
    eauto using fetcher_url.
  intros iso. reflexivity.
Qed.

(** C1. The dispatcher matches on the lower-cased URL, first match wins:
    "reddit.com" gives the Reddit fetcher, else "quora.com" the Quora
    fetcher, else "twitter.com" or "x.com" the Twitter fetcher, all called
    on the original URL; otherwise it issues no request and returns the
    failure record of platform "unknown" with the fixed message.  Whatever
    the branch and the upstream, the record returned carries the original
    URL. *)
Theorem dispatcher_routes (u : string) :
  let n := toLowerCase u in
  (includes n "reddit.com" = true ->
     getSocialMetrics config u = getRedditMetrics u) /\
  (includes n "reddit.com" = false -> includes n "quora.com" = true ->
     getSocialMetrics config u = getQuoraMetrics config u) /\
  (includes n "reddit.com" = false -> includes n "quora.com" = false ->
   includes n "twitter.com" = true \/ includes n "x.com" = true ->
     getSocialMetrics config u = getTwitterMetrics config u) /\
  (includes n "reddit.com" = false -> includes n "quora.com" = false ->
   includes n "twitter.com" = false -> includes n "x.com" = false ->
     forall w,
       run w (getSocialMetrics config u) =
         Value (failure_record "unknown" u (clock w) unsupported) /\
       requests w (getSocialMetrics config u) = []) /\
  always (fun r => url r = u) (getSocialMetrics config u).
Proof.
  intros n. split; [|split; [|split; [|split]]];
    [ unfold getSocialMetrics; fold n ..
    | apply getSocialMetrics_url ].
  - by intros ->.
  - by intros -> ->.
  - intros -> -> [-> | ->]; [done|]. by rewrite orb_true_r.
  - intros -> -> -> -> w. split; reflexivity.
Qed.

End Dispatcher.

(** ** The matcher *)

Lemma rmatch_sound (icase : bool) (r : regex) :
  forall s c k res,
    rmatch icase r s c k = Some res ->
    exists s1 c1, matches icase r s c s1 c1 /\ k s1 c1 = Some res.
Proof.
  induction r as [|p|p|r1 IH1 r2 IH2|r1 IH1 r2 IH2|r IH|n r IH];
    intros s c k res H; simpl in H.
  - eauto using matches.
  - destruct s as [|d s]; [discriminate|].
    destruct (unit_matches icase p d) eqn:E; [|discriminate].
    eauto using matches.
  - destruct s as [|d s]; [discriminate|].
    destruct (p d) eqn:E; [|discriminate].
    eauto using matches.
  - apply IH1 in H as (s1 & c1 & M1 & H).
    apply IH2 in H as (s2 & c2 & M2 & H).
    eauto using matches.
  - destruct (rmatch icase r1 s c k) as [x|] eqn:E.
    + inversion H; subst. apply IH1 in E as (s1 & c1 & M1 & E).
      eauto using matches.
    + apply IH2 in H as (s1 & c1 & M1 & E').
      eauto using matches.
  - revert H. generalize (String.length s) at 1. intros n. revert s c.
    induction n as [|n IHn]; intros s c H.
    + eauto using matches.
    + match type of H with
      | match ?m with _ => _ end = _ => destruct m as [x|] eqn:E
      end.
      * inversion H; subst. apply IH in E as (s1 & c1 & M1 & E).
        destruct (String.length s1 <? String.length s)%nat; [|discriminate].
        apply IHn in E as (s2 & c2 & M2 & E).
        eauto using matches.
      * eauto using matches.
  - apply IH in H as (s1 & c1 & M1 & H).
    eauto using matches.
Qed.









(** ** The scraping fetchers on a 2xx answer *)

Ltac run_simpl :=
  unfold mbind, Async_bind;
  repeat (rewrite ?run_try_catch, ?run_bind; simpl).

Section Scraping.

Variable config : Config.

(** C4. When the search proxy answers 2xx with a payload that has no
    organic result, the Quora fetcher returns the failure record "Quora post
    not found in search results", while the Twitter fetcher (for a URL it
    accepts, so that the proxy is asked at all) reads an empty snippet and
    returns success with likes, retweets, replies, quotes and bookmarks all
    0. *)
Theorem no_organic_result (u : string) (w : Upstream) (resp : Response)
    (data : value) :
  (forall req, on_fetch w req = Value resp) ->
  ok resp = true ->
  on_json w resp = Value data ->
  no_organic data ->
  run w (getQuoraMetrics config u) =
    Value (failure_record "quora" u (clock w)
             "Quora post not found in search results") /\
  (is_Some (str_match u twitter_re) ->
   run w (getTwitterMetrics config u) =
     Value {| platform := "twitter";
              url := u;
              metrics :=
                {| upvotes := None; downvotes := None; comments := None;
                   awards := None;
                   views := None; upvotes_quora := None; shares := None;
                   likes := Some (VNum 0);
                   retweets := Some (VNum 0);
                   replies := Some (VNum 0);
                   quotes := Some (VNum 0);
                   bookmarks := Some (VNum 0) |};
              timestamp := clock w;
              success := true;
              error := None |}).
Proof.
  intros Hf Hok Hj (fields & -> & Ho). split.
  - unfold getQuoraMetrics, getQuoraMetrics_try. run_simpl.
    rewrite Hf. simpl. rewrite Hok. run_simpl. rewrite Hj. run_simpl.
    unfold first_organic. simpl.
    destruct Ho as [-> | [-> | ->]]; reflexivity.
  - intros [m Hm].
    unfold getTwitterMetrics, getTwitterMetrics_try. rewrite Hm. run_simpl.
    rewrite Hf. simpl. rewrite Hok. run_simpl. rewrite Hj. run_simpl.
    unfold first_organic. simpl.
    destruct Ho as [-> | [-> | ->]]; reflexivity.
Qed.


End Scraping.

(** ** The Reddit fetcher *)

Lemma reddit_invalid_url (u : string) (w : Upstream) :
  str_match u reddit_re = None ->
  run w (getRedditMetrics u) =
    Value (failure_record "reddit" u (clock w) "Invalid Reddit URL format") /\
  requests w (getRedditMetrics u) = [].
Proof.
  intros H. unfold getRedditMetrics, getRedditMetrics_try. rewrite H.
  split; reflexivity.
Qed.

Lemma reddit_upstream_error (u : string) (w : Upstream) (resp : Response) :
  is_Some (str_match u reddit_re) ->
  (forall req, on_fetch w req = Value resp) ->
  ok resp = false ->
  run w (getRedditMetrics u) =
    Value (failure_record "reddit" u (clock w)
             ("Reddit API error: " ++ statusText resp)).
Proof.
  intros [m Hm] Hf Hok.
  unfold getRedditMetrics, getRedditMetrics_try. rewrite Hm. run_simpl.
  rewrite Hf. simpl. rewrite Hok. reflexivity.
Qed.

Lemma reddit_not_found (u : string) (w : Upstream) (resp : Response)
    (data postData : value) :
  is_Some (str_match u reddit_re) ->
  (forall req, on_fetch w req = Value resp) ->
  ok resp = true ->
  on_json w resp = Value data ->
  reddit_postData data = Value postData ->
  truthy postData = false ->
  run w (getRedditMetrics u) =
    Value (failure_record "reddit" u (clock w) "Reddit post data not found").
Proof.
  intros [m Hm] Hf Hok Hj Hp Ht.
  unfold getRedditMetrics, getRedditMetrics_try. rewrite Hm. run_simpl.
  rewrite Hf. simpl. rewrite Hok. run_simpl. rewrite Hj. run_simpl.
  rewrite Hp. simpl. rewrite Ht. reflexivity.
Qed.

Lemma reddit_success (u : string) (w : Upstream) (resp : Response)
    (data : value) (post : list (string * value)) :
  is_Some (str_match u reddit_re) ->
  (forall req, on_fetch w req = Value resp) ->
  ok resp = true ->
  on_json w resp = Value data ->
  reddit_postData data = Value (VObj post) ->
  run w (getRedditMetrics u) =
    Value {| platform := "reddit";
             url := u;
             metrics :=
               {| upvotes := Some (js_or (field post "ups") (VNum 0));
                  downvotes := Some (js_or (field post "downs") (VNum 0));
                  comments := Some (js_or (field post "num_comments") (VNum 0));
                  awards :=
                    Some (js_or (field post "total_awards_received") (VNum 0));
                  views := None; upvotes_quora := None; shares := None;
                  likes := None; retweets := None; replies := None;
                  quotes := None; bookmarks := None |};
             timestamp := clock w;
             success := true;
             error := None |}.
Proof.
  intros [m Hm] Hf Hok Hj Hp.
  unfold getRedditMetrics, getRedditMetrics_try. rewrite Hm. run_simpl.
  rewrite Hf. simpl. rewrite Hok. run_simpl. rewrite Hj. run_simpl.
  rewrite Hp. reflexivity.
Qed.

Lemma reddit_postData_listing (post : value) :
  reddit_postData (reddit_listing post) = Value post.
Proof. reflexivity. Qed.

Example reddit_example (iso : string) :
  run (answering
         (reddit_listing
            (VObj [("ups", VNum 42); ("downs", VNum 3);
                   ("num_comments", VNum 7);
                   ("total_awards_received", VNum 1)])) iso)
      (getRedditMetrics reddit_url) =
    Value {| platform := "reddit";
             url := reddit_url;
             metrics :=
               {| upvotes := Some (VNum 42); downvotes := Some (VNum 3);
                  comments := Some (VNum 7); awards := Some (VNum 1);
                  views := None; upvotes_quora := None; shares := None;
                  likes := None; retweets := None; replies := None;
                  quotes := None; bookmarks := None |};
             timestamp := iso;
             success := true;
             error := None |}.
Proof. reflexivity. Qed.

(** C5, where the code departs from it. The payload [[{"data": {}}]] of a
    2xx answer lacks the post data, yet the fetcher does not report "Reddit
    post data not found": reading [children[0]] of the missing [children]
    throws a TypeError, and the failure record carries that message. *)
Theorem reddit_missing_children (iso : string) :
  run (answering (VArr [VObj [("data", VObj [])]]) iso)
      (getRedditMetrics reddit_url) =
    Value (failure_record "reddit" reddit_url iso
             "Cannot read properties of undefined (reading '0')") /\
  reddit_postData (VArr [VObj [("data", VObj [])]]) =
    Thrown (cannot_read "undefined" "0").
Proof. split; reflexivity. Qed.

(** ** Interleavings and [Promise.all] *)

Section Pools.

Context {A : Type}.
Implicit Types (pool : list (Async A)) (sched : schedule).

Lemma deliver_length pool pool' i a :
  deliver pool i a = Some pool' -> length pool' = length pool.
Proof.
  unfold deliver. destruct (pool !! i) as [t|]; [|discriminate].
  destruct (resume t a); [|discriminate].
  intros E. inversion E. apply length_insert.
Qed.

Lemma exec_length sched : forall pool pool',
  exec pool sched = Some pool' -> length pool' = length pool.
Proof.
  induction sched as [|[j a] rest IH]; simpl; intros pool pool' E.
  - by inversion E.
  - destruct (deliver pool j a) as [pool1|] eqn:D; [|discriminate].
    rewrite (IH _ _ E). eapply deliver_length, D.
Qed.

Lemma answers_at_cons_eq i a sched :
  answers_at i ((i, a) :: sched) = a :: answers_at i sched.
Proof. unfold answers_at. by rewrite filter_cons_True. Qed.

Lemma answers_at_cons_ne i j a sched :
  j <> i -> answers_at i ((j, a) :: sched) = answers_at i sched.
Proof.
  intros H. unfold answers_at. by rewrite filter_cons_False.
Qed.

(** What a computation of the pool has become depends on the answers given
    to it, and on nothing else. *)
Lemma exec_lookup sched : forall pool pool' i t,
  exec pool sched = Some pool' -> pool !! i = Some t ->
  exists t', pool' !! i = Some t' /\ feed t (answers_at i sched) = Some t'.
Proof.
  induction sched as [|[j a] rest IH]; simpl; intros pool pool' i t E L.
  - inversion E; subst. eauto.
  - destruct (deliver pool j a) as [pool1|] eqn:D; [|discriminate].
    unfold deliver in D.
    destruct (pool !! j) as [tj|] eqn:Lj; [|discriminate].
    destruct (resume tj a) as [tj'|] eqn:R; [|discriminate].
    inversion D; subst pool1.
    destruct (decide (j = i)) as [->|Hne].
    + rewrite answers_at_cons_eq. simpl.
      assert (tj = t) as -> by congruence. rewrite R.
      eapply IH; [exact E|].
      apply list_lookup_insert_eq. eapply lookup_lt_Some, L.
    + rewrite answers_at_cons_ne by done.
      eapply IH; [exact E|]. by rewrite list_lookup_insert_ne.
Qed.

Lemma exec_app sched1 : forall sched2 pool,
  exec pool (sched1 ++ sched2) =
  match exec pool sched1 with
  | Some pool1 => exec pool1 sched2
  | None => None
  end.
Proof.
  induction sched1 as [|[j a] rest IH]; simpl; intros sched2 pool; [done|].
  destruct (deliver pool j a); [apply IH | done].
Qed.

Lemma all_values_map pool rs :
  all_values pool = Some rs <-> pool = map Ret rs.
Proof.
  revert rs. induction pool as [|t pool IH]; intros rs; simpl.
  - split; intros E; [by inversion E | by destruct rs].
  - destruct t as [a| | | |]; try (split; [discriminate | by destruct rs]).
    destruct (all_values pool) as [l|] eqn:E.
    + split.
      * intros E'. inversion E'; subst. simpl. f_equal. by apply IH.
      * destruct rs as [|r rs]; [discriminate|]. simpl. intros E'.
        inversion E'; subst. f_equal. f_equal.
        assert (Some l = Some rs) by (by apply IH). congruence.
    + split; [discriminate|].
      destruct rs as [|r rs]; [discriminate|]. simpl. intros E'.
      inversion E'; subst.
      assert (None = Some rs) by (by apply IH). discriminate.
Qed.

Lemma all_values_pending pool :
  all_values pool = None -> first_rejection pool = None ->
  exists i t, pool !! i = Some t /\ settled t = false.
Proof.
  induction pool as [|t pool IH]; simpl; [discriminate|].
  destruct t as [a|e|req k|resp k|k]; intros E F.
  - destruct (all_values pool); [discriminate|].
    destruct (IH eq_refl F) as (i & t & L & Hs). by exists (S i), t.
  - discriminate.
  - by exists 0%nat, (AwaitFetch req k).
  - by exists 0%nat, (AwaitJson resp k).
  - by exists 0%nat, (NewDate k).
Qed.

Lemma never_rejected (P : A -> Prop) pool :
  Forall (always P) pool -> first_rejection pool = None.
Proof.
  induction 1 as [|t pool Ht _ IH]; simpl; [done|].
  destruct t; simpl in *; auto. contradiction.
Qed.

Lemma solo_exec (w : Upstream) (i : nat) (t : Async A) : forall pool,
  pool !! i = Some t ->
  exec pool (solo w i t) = Some (<[i := final w t]> pool).
Proof.
  unfold final.
  induction t as [a|e|req k IH|resp k IH|k IH]; simpl; intros pool L.
  - by rewrite list_insert_id.
  - by rewrite list_insert_id.
  - unfold deliver. rewrite L. simpl.
    rewrite IH by (apply list_lookup_insert_eq; eapply lookup_lt_Some, L).
    by rewrite list_insert_insert_eq.
  - unfold deliver. rewrite L. simpl.
    rewrite IH by (apply list_lookup_insert_eq; eapply lookup_lt_Some, L).
    by rewrite list_insert_insert_eq.
  - unfold deliver. rewrite L. simpl.
    rewrite IH by (apply list_lookup_insert_eq; eapply lookup_lt_Some, L).
    by rewrite list_insert_insert_eq.
Qed.

Lemma in_turn_exec (w : Upstream) (rest : list (Async A)) : forall before,
  exec (before ++ rest)%list (in_turn w (length before) rest) =
    Some (before ++ map (final w) rest)%list.
Proof.
  induction rest as [|t rest IH]; simpl; intros before; [done|].
  rewrite exec_app, (solo_exec w (length before) t).
  - rewrite insert_app_r_alt, Nat.sub_diag by lia. simpl.
    specialize (IH (before ++ [final w t])%list).
    rewrite length_app, <- !app_assoc in IH. simpl in IH.
    by rewrite Nat.add_1_r in IH.
  - by rewrite lookup_app_r, Nat.sub_diag by lia.
Qed.

End Pools.

Lemma Promise_all_values {A : Type} (rs : list A) :
  Promise_all (map Ret rs) = Some (Value rs).
Proof.
  unfold Promise_all.
  assert (first_rejection (map (@Ret A) rs) = None) as ->
    by (induction rs; simpl; auto).
  assert (all_values (map Ret rs) = Some rs) as -> by (by apply all_values_map).
  reflexivity.
Qed.

Section Bulk.

Variable config : Config.

Lemma getSocialMetrics_never_throws (u : string) :
  always (fun _ => True) (getSocialMetrics config u).
Proof. eapply ends_mono; [| |apply getSocialMetrics_url]; auto. Qed.

Lemma bulk_final (w : Upstream) (urls : list string) :
  exists rs,
    map (final w) (getBulkSocialMetrics config urls) = map Ret rs /\
    Forall2 (fun u r => run w (getSocialMetrics config u) = Value r) urls rs.
Proof.
  induction urls as [|u urls (rs & E & F)]; simpl.
  - by exists [].
  - destruct (always_run _ w _ (getSocialMetrics_never_throws u)) as (r & R & _).
    exists (r :: rs). split.
    + simpl. unfold final at 1. rewrite R. by f_equal.
    + by constructor.
Qed.

(** C3. [getBulkSocialMetrics] starts one dispatcher call per URL and hands
    the promises to [Promise.all].  Whatever the order in which the world
    answers them: the pool keeps one slot per URL, in input order, and the
    call in slot [i] has seen the answers addressed to it and no others;
    [Promise.all] never rejects; it is pending as long as some call has not
    ended; and when it fulfils, its array has the length of the input and
    its element [i] is the record the dispatcher returns for URL [i] on the
    answers that call received.  Against any upstream, answering the calls
    brings [Promise.all] to fulfil with the dispatcher's results in input
    order. *)
Theorem bulk_in_input_order (urls : list string) :
  (forall sched pool,
     exec (getBulkSocialMetrics config urls) sched = Some pool ->
     length pool = length urls /\
     (forall i u, urls !! i = Some u ->
        pool !! i = feed (getSocialMetrics config u) (answers_at i sched)) /\
     match Promise_all pool with
     | Some (Thrown _) => False
     | Some (Value rs) =>
         length rs = length urls /\
         pool = map Ret rs /\
         forall i u, urls !! i = Some u ->
           exists r, rs !! i = Some r /\
             feed (getSocialMetrics config u) (answers_at i sched) =
               Some (Ret r)
     | None => exists i t, pool !! i = Some t /\ settled t = false
     end) /\
  (forall w, exists pool rs,
     exec (getBulkSocialMetrics config urls)
       (in_turn w 0 (getBulkSocialMetrics config urls)) = Some pool /\
     Promise_all pool = Some (Value rs) /\
     Forall2 (fun u r => run w (getSocialMetrics config u) = Value r) urls rs).
Proof.
  split.
  - intros sched pool E.
    assert (length pool = length urls) as Hlen.
    { rewrite (exec_length _ _ _ E). apply length_map. }
    assert (forall i u, urls !! i = Some u ->
              pool !! i = feed (getSocialMetrics config u) (answers_at i sched))
      as Hslot.
    { intros i u L.
      destruct (exec_lookup sched _ _ i (getSocialMetrics config u) E)
        as (t' & L' & F); [|congruence].
      unfold getBulkSocialMetrics. by rewrite list_lookup_fmap, L. }
    split; [done|]. split; [done|].
    assert (Forall (always (fun _ : SocialMetrics => True)) pool) as Hok.
    { apply Forall_lookup. intros i t L.
      destruct (urls !! i) as [u|] eqn:Lu.
      - rewrite (Hslot i u Lu) in L.
        eapply feed_ends; [apply getSocialMetrics_never_throws | exact L].
      - apply lookup_ge_None in Lu. apply lookup_lt_Some in L. lia. }
    unfold Promise_all. rewrite (never_rejected _ _ Hok).
    destruct (all_values pool) as [rs|] eqn:V.
    + apply all_values_map in V. subst pool.
      rewrite length_map in Hlen. split; [done|]. split; [done|].
      intros i u L. rewrite <- (Hslot i u L), list_lookup_fmap.
      destruct (rs !! i) as [r|] eqn:Lr; [eauto|].
      apply lookup_ge_None in Lr. apply lookup_lt_Some in L. lia.
    + apply all_values_pending; [done|]. eapply never_rejected, Hok.
  - intros w. destruct (bulk_final w urls) as (rs & E & F).
    exists (map Ret rs), rs. split; [|split; [apply Promise_all_values | done]].
    rewrite <- E. apply (in_turn_exec w _ []).
Qed.

End Bulk.

(** ** The metrics store *)

Section Store.

Import MemStorage.

Implicit Types (m x y : SocialMetric) (l : list SocialMetric) (st : Store).

Lemma insert_sorted_perm cmp x l : Permutation (insert_sorted cmp x l) (x :: l).
Proof.
  induction l as [|y l IH]; simpl; [done|].
  destruct (cmp x y <=? 0)%Z; [done|].
  rewrite IH. apply perm_swap.
Qed.

Lemma sort_perm cmp l : Permutation (sort cmp l) l.
Proof.
  induction l as [|x l IH]; simpl; [done|].
  by rewrite insert_sorted_perm, IH.
Qed.





Lemma getSocialMetrics_asks (u p : option string) st :
  getSocialMetrics u p st =
  sort newest_first
    (List.filter
       (fun m => asks_for u (row_url m) && asks_for p (row_platform m))
       (values (socialMetrics st))).
Proof.
  unfold getSocialMetrics. f_equal.
  induction (values (socialMetrics st)) as [|m l IH].
  - by destruct u as [[|? ?]|], p as [[|? ?]|].
  - destruct u as [[|c u]|], p as [[|d p]|]; simpl in *;
      rewrite ?andb_true_r;
      repeat (match goal with
              | |- context [String.eqb ?a ?b] => destruct (String.eqb a b)
              end; simpl);
      rewrite <- ?IH; try done.
Qed.





End Store.

(** ** The monitor registry *)

Section Registry.

Import MetricsMonitor.

Variable config : Config.
Variable Callback : Type.

Implicit Types (st : Runtime Callback) (url : string) (interval : nat).

Lemma stopMonitoring_absent st url :
  intervals st !! url = None -> stopMonitoring url st = st.
Proof. intros H. unfold stopMonitoring. by rewrite H. Qed.

Lemma stopMonitoring_present st url interval :
  intervals st !! url = Some interval ->
  stopMonitoring url st =
    {| intervals := delete url (intervals st);
       timers := delete interval (timers st);
       next_timeout := next_timeout st;
       inflight := inflight st;
       calls := calls st |}.
Proof. intros H. unfold stopMonitoring. by rewrite H. Qed.

Lemma stopMonitoring_lookup st url : intervals (stopMonitoring url st) !! url = None.
Proof.
  destruct (intervals st !! url) as [h|] eqn:E.
  - rewrite (stopMonitoring_present _ _ _ E). simpl. apply lookup_delete_eq.
  - by rewrite stopMonitoring_absent.
Qed.

Lemma consistent_init : consistent (@init Callback).
Proof.
  unfold consistent, init. simpl. split; [|split].
  - intros ? ?. by rewrite lookup_empty.
  - intros ? ?. by rewrite lookup_empty.
  - intros ? [? H]. by rewrite lookup_empty in H.
Qed.

Lemma consistent_stop st url : consistent st -> consistent (stopMonitoring url st).
Proof.
  intros (I1 & I2 & I3).
  destruct (intervals st !! url) as [h|] eqn:E;
    [|by rewrite stopMonitoring_absent].
  rewrite (stopMonitoring_present _ _ _ E).
  destruct (I1 _ _ E) as (th & Hth & Hu).
  split; [|split]; simpl.
  - intros u h' L. apply lookup_delete_Some in L as [Hne L].
    destruct (I1 _ _ L) as (t & Ht & Htu). exists t. split; [|done].
    rewrite lookup_delete_ne; [done|]. intros ->. congruence.
  - intros h' t L. apply lookup_delete_Some in L as [Hne L].
    rewrite lookup_delete_ne; [by apply I2|].
    intros Heq. apply I2 in L. rewrite <- Heq in L. congruence.
  - intros h' [t L]. apply lookup_delete_Some in L as [_ L]. apply I3. eauto.
Qed.

Lemma consistent_start st url intervalMs callback :
  consistent st -> consistent (startMonitoring config url intervalMs callback st).
Proof.
  intros I. apply (consistent_stop _ url) in I.
  pose proof (stopMonitoring_lookup st url) as Hnone.
  unfold startMonitoring. simpl.
  destruct I as (I1 & I2 & I3).
  set (st1 := stopMonitoring url st) in *.
  split; [|split]; simpl.
  - intros u h L. destruct (decide (url = u)) as [<-|Hne].
    + rewrite lookup_insert_eq in L. inversion L; subst.
      rewrite lookup_insert_eq. eauto.
    + rewrite lookup_insert_ne in L by done.
      destruct (I1 _ _ L) as (t & Ht & Hu). exists t. split; [|done].
      rewrite lookup_insert_ne; [done|].
      intros <-. assert (next_timeout st1 < next_timeout st1); [|lia].
      apply I3. eauto.
  - intros h t L. destruct (decide (next_timeout st1 = h)) as [<-|Hne].
    + rewrite lookup_insert_eq in L. inversion L; subst. simpl.
      apply lookup_insert_eq.
    + rewrite lookup_insert_ne in L by done.
      pose proof (I2 _ _ L) as L'.
      rewrite lookup_insert_ne; [done|]. intros Heq. congruence.
  - intros h [t L]. destruct (decide (next_timeout st1 = h)) as [<-|Hne]; [lia|].
    rewrite lookup_insert_ne in L by done.
    assert (h < next_timeout st1); [apply I3; eauto | lia].
Qed.

(** [forEach(clearInterval)] leaves a timer armed only if no entry names
    it, and touches nothing but the timers. *)
Lemma clear_all st :
  let st' :=
    map_fold (fun _ interval st => clearInterval interval st) st (intervals st) in
  (forall interval t,
     timers st' !! interval = Some t ->
     timers st !! interval = Some t /\
     forall url, intervals st !! url <> Some interval) /\
  next_timeout st' = next_timeout st /\
  inflight st' = inflight st /\ calls st' = calls st.
Proof.
  apply (map_fold_weak_ind
    (fun (r : Runtime Callback) (m : gmap string nat) =>
       (forall interval t,
          timers r !! interval = Some t ->
          timers st !! interval = Some t /\
          forall url, m !! url <> Some interval) /\
       next_timeout r = next_timeout st /\
       inflight r = inflight st /\ calls r = calls st)).
  - split; [|done]. intros h t L. split; [done|].
    intros u. by rewrite lookup_empty.
  - intros u h m r Hfresh (IH & Hn & Hi & Hc). simpl.
    split; [|done]. intros h' t L.
    apply lookup_delete_Some in L as [Hne L].
    destruct (IH _ _ L) as [L' Hno]. split; [done|].
    intros u'. destruct (decide (u = u')) as [<-|Hu].
    + rewrite lookup_insert_eq. congruence.
    + by rewrite lookup_insert_ne.
Qed.

Lemma consistent_stopAll st : consistent st -> consistent (stopAllMonitoring st).
Proof.
  intros (I1 & I2 & I3). destruct (clear_all st) as (Ht & Hn & _).
  unfold stopAllMonitoring. split; [|split]; simpl.
  - intros ? ?. by rewrite lookup_empty.
  - intros h t L. destruct (Ht _ _ L) as [L' Hno].
    destruct (Hno _ (I2 _ _ L')).
  - intros h [t L]. destruct (Ht _ _ L) as [L' _]. rewrite Hn. apply I3. eauto.
Qed.

Lemma consistent_tick st interval : consistent st -> consistent (tick config interval st).
Proof. unfold tick. by destruct (timers st !! interval). Qed.

Lemma consistent_advance st j a : consistent st -> consistent (advance j a st).
Proof.
  unfold advance. destruct (inflight st !! j) as [[t cb]|]; [|done].
  destruct (resume t a) as [[]|]; done.
Qed.

Lemma reachable_consistent st : reachable config st -> consistent st.
Proof.
  induction 1;
    auto using consistent_init, consistent_start, consistent_stop,
      consistent_stopAll, consistent_tick, consistent_advance.
Qed.

Lemma dispatcher_pending (u : string) :
  settled (getSocialMetrics config u) = false.
Proof.
  unfold getSocialMetrics, getRedditMetrics, getQuoraMetrics, getTwitterMetrics,
    getRedditMetrics_try, getTwitterMetrics_try.
  repeat match goal with
    | |- context [if ?b then _ else _] => destruct b
    | |- context [match str_match ?s ?re with _ => _ end] =>
        destruct (str_match s re)
    end; reflexivity.
Qed.


(** Once the world has answered an in-flight dispatcher run to its end, the
    callback that waits for it has been invoked, once, on its record. *)
Lemma advance_all_calls (j : nat) (answers : list answer) :
  forall st t callback r,
    inflight st !! j = Some (t, callback) ->
    settled t = false ->
    feed t answers = Some (Ret r) ->
    calls (advance_all j answers st) = (calls st ++ [(callback, r)])%list.
Proof.
  induction answers as [|a rest IH]; simpl; intros st t cb r L S F.
  - inversion F; subst. discriminate.
  - destruct (resume t a) as [t1|] eqn:R; [|discriminate].
    unfold advance at 1. rewrite L, R.
    destruct t1 as [r1|e|req k|resp k|k].
    + destruct rest; simpl in F; [|discriminate]. by inversion F; subst.
    + destruct rest; simpl in F; discriminate.
    + rewrite (IH _ (AwaitFetch req k) cb r); [done| |done|exact F]. simpl.
      apply list_lookup_insert_eq. eapply lookup_lt_Some, L.
    + rewrite (IH _ (AwaitJson resp k) cb r); [done| |done|exact F]. simpl.
      apply list_lookup_insert_eq. eapply lookup_lt_Some, L.
    + rewrite (IH _ (NewDate k) cb r); [done| |done|exact F]. simpl.
      apply list_lookup_insert_eq. eapply lookup_lt_Some, L.
Qed.

Lemma timers_for_one st url interval (t : Timer Callback) :
  timers st !! interval = Some t -> tick_url t = url ->
  (forall interval' t', timers st !! interval' = Some t' ->
                        tick_url t' = url -> interval' = interval) ->
  timers_for url st = [(interval, t)].
Proof.
  intros L Hu Huniq. unfold timers_for.
  set (l := filter _ _).
  assert (NoDup l) as Hnd by apply NoDup_filter, NoDup_map_to_list.
  assert (forall p, p ∈ l <-> p = (interval, t)) as Hel.
  { intros [h' t']. unfold l. rewrite list_elem_of_filter, elem_of_map_to_list.
    simpl. split.
    - intros [Hu' L']. assert (h' = interval) as -> by eauto. congruence.
    - intros E. inversion E; subst. done. }
  clearbody l. destruct l as [|p l].
  - assert ((interval, t) ∈ []) as H by (by apply Hel). inversion H.
  - assert (p = (interval, t)) as -> by (apply Hel; left).
    destruct l as [|q l]; [done|].
    assert (q = (interval, t)) as -> by (apply Hel; right; left).
    apply NoDup_cons in Hnd as [Hnot _]. destruct Hnot. left.
Qed.


(** C9. [stopMonitoring(url)] on a URL without an entry returns the state it
    was given: nothing is raised and nothing changes.  On a URL with an
    entry it disarms the timer the entry names and deletes the entry, and
    changes nothing else. *)
Theorem stopMonitoring_absent_or_present st url :
  (intervals st !! url = None -> stopMonitoring url st = st) /\
  (forall interval,
     intervals st !! url = Some interval ->
     let st' := stopMonitoring url st in
     intervals st' = delete url (intervals st) /\
     timers st' = delete interval (timers st) /\
     intervals st' !! url = None /\
     timers st' !! interval = None /\
     next_timeout st' = next_timeout st /\
     inflight st' = inflight st /\
     calls st' = calls st).
Proof.
  split; [apply stopMonitoring_absent|].
  intros h E st'. unfold st'. rewrite (stopMonitoring_present _ _ _ E). simpl.
  by rewrite !lookup_delete_eq.
Qed.


End Registry.

(** ** The theorems at concrete inputs *)

Lemma dispatcher_routes_witness :
  (run (offline "2025-01-01T00:00:00.000Z")
       (getSocialMetrics example_config other_url) =
     Value (failure_record "unknown" other_url "2025-01-01T00:00:00.000Z"
              unsupported) /\
   requests (offline "2025-01-01T00:00:00.000Z")
       (getSocialMetrics example_config other_url) = []) /\
  getSocialMetrics example_config "HTTPS://WWW.REDDIT.COM/r/rocq/comments/1/t" =
    getRedditMetrics "HTTPS://WWW.REDDIT.COM/r/rocq/comments/1/t" /\
  getSocialMetrics example_config "https://X.com/someone/status/12345" =
    getTwitterMetrics example_config "https://X.com/someone/status/12345".
Proof.
  split; [|split].
  - destruct (dispatcher_routes example_config other_url)
      as (_ & _ & _ & H & _).
    apply H; reflexivity.
  - apply (dispatcher_routes example_config
             "HTTPS://WWW.REDDIT.COM/r/rocq/comments/1/t").
    reflexivity.
  - destruct (dispatcher_routes example_config
                "https://X.com/someone/status/12345") as (_ & _ & H & _).
    apply H; [reflexivity | reflexivity | right; reflexivity].
Defined.

Lemma fetchers_never_throw_witness :
  run (offline "2025-01-01T00:00:00.000Z") (getRedditMetrics reddit_url) =
    Value (failure_record "reddit" reddit_url "2025-01-01T00:00:00.000Z"
             "fetch failed").
Proof.
  destruct (fetchers_never_throw example_config) as [H _].
  destruct (H reddit_url) as (_ & Hcatch & _).
  apply (Hcatch (offline "2025-01-01T00:00:00.000Z")
           (ErrorObj "TypeError" "fetch failed")).
  reflexivity.
Defined.

Lemma bulk_in_input_order_witness :
  exists pool first second,
    exec (getBulkSocialMetrics example_config bulk_urls) late_first = Some pool /\
    Promise_all pool = Some (Value [first; second]) /\
    success first = false /\ url first = other_url /\
    success second = true /\ url second = reddit_url.
Proof.
  destruct (bulk_in_input_order example_config bulk_urls) as [H _].
  eexists _, _, _. split; [reflexivity|].
  match goal with
  | |- Promise_all ?p = _ /\ _ =>
      destruct (H late_first p eq_refl) as (_ & _ & Hall)
  end.
  split; [reflexivity|]. repeat split.
Defined.

Lemma no_organic_result_witness :
  run (answering (VObj [("organic", VArr [])]) "2025-01-01T00:00:00.000Z")
      (getQuoraMetrics example_config quora_url) =
    Value (failure_record "quora" quora_url "2025-01-01T00:00:00.000Z"
             "Quora post not found in search results") /\
  exists r,
    run (answering (VObj [("organic", VArr [])]) "2025-01-01T00:00:00.000Z")
        (getTwitterMetrics example_config tweet_url) = Value r /\
    success r = true /\
    likes (metrics r) = Some (VNum 0) /\
    retweets (metrics r) = Some (VNum 0) /\
    replies (metrics r) = Some (VNum 0).
Proof.
  destruct (no_organic_result example_config tweet_url
              (answering (VObj [("organic", VArr [])]) "2025-01-01T00:00:00.000Z")
              {| ok := true; statusText := "OK" |}
              (VObj [("organic", VArr [])]))
    as [_ Ht].
  - reflexivity.
  - reflexivity.
  - reflexivity.
  - exists [("organic", VArr [])]. split; [reflexivity|]. right. right. reflexivity.
  - split.
    + apply (no_organic_result example_config quora_url
               (answering (VObj [("organic", VArr [])]) "2025-01-01T00:00:00.000Z")
               {| ok := true; statusText := "OK" |}
               (VObj [("organic", VArr [])])); try reflexivity.
      exists [("organic", VArr [])]. split; [reflexivity|]. right. right.
      reflexivity.
    + eexists. split; [apply Ht; eexists; reflexivity|]. repeat split.
Defined.






Lemma stopMonitoring_absent_or_present_witness :
  MetricsMonitor.stopMonitoring reddit_url (@MetricsMonitor.init nat) =
    MetricsMonitor.init.
Proof.
  apply (stopMonitoring_absent_or_present nat MetricsMonitor.init reddit_url).
  reflexivity.
Defined.


(** * Further properties of the code *)

(** ** The registry over its histories *)

Section RegistryHistory.

Import MetricsMonitor.

Variable config : Config.
Variable Callback : Type.

Implicit Types (st : Runtime Callback) (url : string) (interval : nat).

Lemma perform_reachable (a : action Callback) st :
  reachable config st -> reachable config (perform config a st).
Proof. destruct a; simpl; intros H; by constructor. Qed.

Lemma perform_all_reachable (actions : list (action Callback)) : forall st,
  reachable config st -> reachable config (perform_all config actions st).
Proof.
  induction actions as [|a rest IH]; simpl; intros st H; [done|].
  apply IH, perform_reachable, H.
Qed.

Lemma timers_for_none st url :
  reachable config st -> intervals st !! url = None -> timers_for url st = [].
Proof.
  intros Hreach E.
  destruct (reachable_consistent _ _ _ Hreach) as (_ & I2 & _).
  unfold timers_for. destruct (filter _ _) as [|[h t] l] eqn:F; [done|].
  assert ((h, t) ∈ filter (fun p => tick_url p.2 = url) (map_to_list (timers st)))
    as Hin by (rewrite F; left).
  apply list_elem_of_filter in Hin as [Hu Hin]. simpl in Hu.
  apply elem_of_map_to_list, I2 in Hin. congruence.
Qed.

(** X1.
    [stopAllMonitoring] disarms every timer the registry started and empties
    the map; the dispatcher runs in flight and the callbacks already invoked
    are not touched, and no timer can tick any more. *)
Theorem stopAllMonitoring_clears st :
  reachable config st ->
  let st' := stopAllMonitoring st in
  timers st' = ∅ /\ intervals st' = ∅ /\
  inflight st' = inflight st /\ calls st' = calls st /\
  next_timeout st' = next_timeout st /\
  forall interval, tick config interval st' = st'.
Proof.
  intros Hreach st'.
  destruct (reachable_consistent _ _ _ Hreach) as (_ & I2 & _).
  destruct (clear_all _ st) as (Ht & Hn & Hi & Hc).
  assert (timers st' = ∅) as He.
  { apply map_eq. intros h. rewrite lookup_empty.
    destruct (timers st' !! h) as [t|] eqn:L; [|done].
    destruct (Ht _ _ L) as [L' Hno]. destruct (Hno _ (I2 _ _ L')). }
  repeat split; auto.
  intros h. unfold tick. by rewrite He, lookup_empty.
Qed.

(** X2.
    In every state the registry can be in, a URL with an entry has exactly
    one armed timer polling it, the one its entry names, and a URL without
    an entry has none. *)
Theorem registry_one_timer_per_url st url :
  reachable config st ->
  match intervals st !! url with
  | Some interval =>
      exists t, timers st !! interval = Some t /\ tick_url t = url /\
                timers_for url st = [(interval, t)]
  | None => timers_for url st = []
  end.
Proof.
  intros Hreach.
  destruct (reachable_consistent _ _ _ Hreach) as (I1 & I2 & _).
  destruct (intervals st !! url) as [h|] eqn:E.
  - destruct (I1 _ _ E) as (t & Lt & Hu). exists t. repeat split; auto.
    apply timers_for_one; auto.
    intros h' t' L' Hu'. apply I2 in L'. rewrite Hu' in L'. congruence.
  - by apply timers_for_none.
Qed.

(** X3.
    [startMonitoring(u, ...)] leaves the entry of every other URL as it was,
    with its timer armed and unchanged, invokes no callback, and uses up one
    timer number. *)
Theorem startMonitoring_frame st (u v : string) intervalMs callback :
  reachable config st -> u <> v ->
  let st' := startMonitoring config u intervalMs callback st in
  intervals st' !! v = intervals st !! v /\
  (forall interval, intervals st !! v = Some interval ->
     timers st' !! interval = timers st !! interval) /\
  calls st' = calls st /\
  next_timeout st' = S (next_timeout st).
Proof.
  intros Hreach Hne st'.
  destruct (reachable_consistent _ _ _ Hreach) as (I1 & I2 & I3).
  unfold st', startMonitoring.
  destruct (intervals st !! u) as [hu|] eqn:E.
  - rewrite (stopMonitoring_present _ _ _ _ E). simpl.
    split; [by rewrite lookup_insert_ne, lookup_delete_ne|].
    split; [|done].
    intros hv Lv. destruct (I1 _ _ Lv) as (tv & Ltv & Hv).
    destruct (I1 _ _ E) as (tu & Ltu & Hu).
    assert (hv < next_timeout st) by (apply I3; eauto).
    rewrite lookup_insert_ne by lia.
    rewrite lookup_delete_ne; [done|]. intros ->. congruence.
  - rewrite stopMonitoring_absent by done. simpl.
    split; [by rewrite lookup_insert_ne|]. split; [|done].
    intros hv Lv. destruct (I1 _ _ Lv) as (tv & Ltv & Hv).
    assert (hv < next_timeout st) by (apply I3; eauto).
    by rewrite lookup_insert_ne by lia.
Qed.

(** X4.
    Stopping a monitor right after starting it removes the entry and the
    timer, but not the dispatcher run the start began: that run is still in
    flight, and when the world has answered it the callback is invoked on
    its record all the same. *)
Theorem stop_after_start_keeps_run st url intervalMs callback :
  reachable config st ->
  let st' :=
    stopMonitoring url (startMonitoring config url intervalMs callback st) in
  intervals st' !! url = None /\
  timers_for url st' = [] /\
  inflight st' =
    (inflight st ++ [(getSocialMetrics config url, callback)])%list /\
  forall answers r,
    feed (getSocialMetrics config url) answers = Some (Ret r) ->
    calls (advance_all (length (inflight st)) answers st') =
      (calls st ++ [(callback, r)])%list.
Proof.
  intros Hreach st'.
  pose proof (reach_start _ _ _ url intervalMs callback Hreach) as Hr1.
  pose proof (reach_stop _ _ _ url Hr1) as Hr2. fold st' in Hr2.
  set (st1 := startMonitoring config url intervalMs callback st) in *.
  assert (intervals st1 !! url = Some (next_timeout (stopMonitoring url st)))
    as Li by apply lookup_insert_eq.
  assert (inflight (stopMonitoring url st) = inflight st /\
          calls (stopMonitoring url st) = calls st) as [Hin Hcalls0].
  { unfold stopMonitoring. by destruct (intervals st !! url). }
  assert (inflight st1 =
            (inflight st ++ [(getSocialMetrics config url, callback)])%list)
    as Hfl by (unfold st1, startMonitoring; simpl; by rewrite Hin).
  assert (calls st1 = calls st) as Hcalls
    by (unfold st1, startMonitoring; simpl; by rewrite Hcalls0).
  assert (intervals st' !! url = None) as Hnone
    by apply stopMonitoring_lookup.
  assert (inflight st' =
            (inflight st ++ [(getSocialMetrics config url, callback)])%list)
    as Hfl'.
  { unfold st'. rewrite (stopMonitoring_present _ _ _ _ Li). simpl.
    exact Hfl. }
  split; [done|]. split; [|split; [done|]].
  - by apply timers_for_none.
  - intros answers r F.
    erewrite (advance_all_calls Callback _ answers st'
                (getSocialMetrics config url) callback r).
    + f_equal. unfold st'. rewrite (stopMonitoring_present _ _ _ _ Li). simpl.
      exact Hcalls.
    + rewrite Hfl'. by rewrite lookup_app_r, Nat.sub_diag by lia.
    + apply dispatcher_pending.
    + exact F.
Qed.

Lemma disarmed_stays (a : action Callback) st interval :
  interval < next_timeout st -> timers st !! interval = None ->
  interval < next_timeout (perform config a st) /\
  timers (perform config a st) !! interval = None.
Proof.
  intros Hlt Hnone. destruct a as [u iv cb|u| |h|j a]; simpl.
  - unfold startMonitoring.
    assert (next_timeout (stopMonitoring u st) = next_timeout st /\
            timers (stopMonitoring u st) !! interval = None) as [Hn Ht].
    { unfold stopMonitoring. destruct (intervals st !! u); simpl; [|done].
      split; [done|]. rewrite lookup_delete_None. by right. }
    simpl. rewrite Hn. split; [lia|]. by rewrite lookup_insert_ne by lia.
  - unfold stopMonitoring. destruct (intervals st !! u); simpl; [|done].
    split; [done|]. rewrite lookup_delete_None. by right.
  - destruct (clear_all _ st) as (Ht & Hn & _).
    unfold stopAllMonitoring. simpl. rewrite Hn. split; [done|].
    apply eq_None_not_Some. intros [t L].
    destruct (Ht _ _ L) as [L' _]. congruence.
  - unfold tick. by destruct (timers st !! h).
  - unfold advance. destruct (inflight st !! j) as [[t cb]|]; [|done].
    by destruct (resume t a) as [[]|].
Qed.

(** X5.
    A timer that [stopMonitoring] has cleared never fires again: whatever
    happens to the registry afterwards, the cleared timer stays disarmed,
    no entry names it, and a tick of it does nothing. *)
Theorem cleared_timer_never_fires st url interval
    (actions : list (action Callback)) :
  reachable config st ->
  intervals st !! url = Some interval ->
  let st' := perform_all config actions (stopMonitoring url st) in
  timers st' !! interval = None /\
  (forall u, intervals st' !! u <> Some interval) /\
  tick config interval st' = st'.
Proof.
  intros Hreach E st'.
  destruct (reachable_consistent _ _ _ Hreach) as (I1 & _ & I3).
  destruct (I1 _ _ E) as (t & Lt & _).
  assert (interval < next_timeout (stopMonitoring url st) /\
          timers (stopMonitoring url st) !! interval = None) as Hstart.
  { rewrite (stopMonitoring_present _ _ _ _ E). simpl.
    split; [apply I3; eauto | apply lookup_delete_eq]. }
  assert (forall s0, interval < next_timeout s0 /\ timers s0 !! interval = None ->
            timers (perform_all config actions s0) !! interval = None) as Hall.
  { induction actions as [|a rest IH]; simpl; intros s0 [Hlt Hn]; [done|].
    apply IH. by apply disarmed_stays. }
  assert (timers st' !! interval = None) as Hdead by (apply Hall, Hstart).
  split; [done|]. split.
  - intros u Lu.
    assert (reachable config st') as Hr
      by (apply perform_all_reachable; by constructor).
    destruct (reachable_consistent _ _ _ Hr) as (J1 & _ & _).
    destruct (J1 _ _ Lu) as (t' & Lt' & _). congruence.
  - unfold tick. by rewrite Hdead.
Qed.

End RegistryHistory.

(** ** Requests *)

Section RequestFacts.

Context {A B : Type}.

Lemma fetchless_bind (t : Async A) (f : A -> Async B) :
  fetchless t -> (forall a, fetchless (f a)) -> fetchless (bind t f).
Proof. induction t; simpl; auto. Qed.

Lemma fetchless_try_catch (t : Async A) (h : js_exn -> Async A) :
  fetchless t -> (forall e, fetchless (h e)) -> fetchless (try_catch t h).
Proof. induction t; simpl; auto. Qed.

Lemma fetchless_settle (o : Outcome A) : fetchless (settle o).
Proof. by destruct o. Qed.



Lemma fetchless_requests (w : Upstream) (t : Async A) :
  fetchless t -> requests w t = [].
Proof. induction t; simpl; auto. contradiction. Qed.


End RequestFacts.

Ltac fetchless_body :=
  unfold mbind, Async_bind;
  repeat match goal with
    | |- fetchless (bind _ _) => apply fetchless_bind; [|intros ?]
    | |- fetchless (settle _) => apply fetchless_settle
    | |- fetchless (json _) => intros []; exact I
    | |- fetchless now => intros ?; exact I
    | |- fetchless (if ?b then _ else _) => destruct b
    | |- fetchless (throw_Error _) => exact I
    | |- fetchless (Ret _) => exact I
    end.

Section Endpoints.

Variable config : Config.

Lemma failure_fetchless (p u : string) (e : js_exn) : fetchless (failure p u e).
Proof. intros iso. exact I. Qed.



End Endpoints.

(** ** What a match tells about the text *)

Lemma length_append (a b : string) :
  String.length (a ++ b) = String.length a + String.length b.
Proof. induction a as [|c a IH]; [done|]. rewrite append_String. simpl. by rewrite IH. Qed.

Lemma consumed_append (pre rest : string) : consumed (pre ++ rest) rest = pre.
Proof.
  unfold consumed. rewrite length_append.
  replace (String.length pre + String.length rest - String.length rest)
    with (String.length pre) by lia.
  induction pre as [|c pre IH].
  - rewrite append_Empty. by destruct rest.
  - rewrite append_String. simpl. by rewrite IH.
Qed.

Lemma append_assoc (a b c : string) : (a ++ b) ++ c = a ++ (b ++ c).
Proof.
  induction a as [|x a IH]; [done|]. by rewrite !append_String, IH.
Qed.

Lemma matches_split (icase : bool) (r : regex) (s s1 : string) (c c1 : captures) :
  matches icase r s c s1 c1 -> exists pre, s = pre ++ s1.
Proof.
  induction 1 as [s c|p d s c _|p d s c _|r1 r2 s c s1 c1 s2 c2 _ [p1 E1] _ [p2 E2]
                 |r1 r2 s c s1 c1 _ IH|r1 r2 s c s1 c1 _ IH|r s c
                 |r s c s1 c1 s2 c2 _ [p1 E1] _ [p2 E2]|n r s c s1 c1 _ IH].
  - by exists EmptyString.
  - by exists (String d EmptyString).
  - by exists (String d EmptyString).
  - exists (p1 ++ p2). by rewrite append_assoc, <- E2.
  - done.
  - done.
  - by exists EmptyString.
  - exists (p1 ++ p2). by rewrite append_assoc, <- E2.
  - done.
Qed.

Lemma rsearch_at (icase : bool) (r : regex) (n : nat) (s : string)
    (m : captures) :
  rsearch icase r n s = Some m ->
  exists before s0 s1 c1,
    s = before ++ s0 /\
    matches icase r s0 (replicate (S n) None) s1 c1 /\
    m = <[0%nat := Some (consumed s0 s1)]> c1.
Proof.
  induction s as [|d s IH]; simpl; intros H.
  - destruct (rmatch _ _ _ _ _) as [x|] eqn:E; [|discriminate].
    inversion H; subst.
    apply rmatch_sound in E as (s1 & c1 & M & E). inversion E; subst.
    by exists EmptyString, EmptyString, s1, c1.
  - destruct (rmatch _ _ _ _ _) as [x|] eqn:E.
    + inversion H; subst.
      apply rmatch_sound in E as (s1 & c1 & M & E). inversion E; subst.
      by exists EmptyString, (String d s), s1, c1.
    + destruct (IH H) as (before & s0 & s1 & c1 & -> & M & ->).
      by exists (String d before), s0, s1, c1.
Qed.

Lemma unit_matches_sensitive (p d : ascii) : unit_matches false p d = true -> p = d.
Proof. simpl. apply Ascii.eqb_eq. Qed.

(** A literal text, matched with case: the text itself. *)
Lemma matches_Str (w s s1 : string) (c c1 : captures) :
  matches false (Str w) s c s1 c1 -> s = w ++ s1 /\ c1 = c.
Proof.
  revert s c. induction w as [|x w IH]; simpl; intros s c M.
  - by inversion M; subst.
  - inversion M as [| | |? ? ? ? sa ca ? ? ML MR| | | | |]; subst.
    inversion ML as [|? d ? ? Hd| | | | | | |]; subst.
    apply unit_matches_sensitive in Hd as ->.
    destruct (IH _ _ MR) as [-> ->]. by rewrite append_String.
Qed.

(** A run of a character class: only code units of the class. *)
Lemma matches_Star_Cls (icase : bool) (p : ascii -> bool) (s s1 : string)
    (c c1 : captures) :
  matches icase (Star (Cls p)) s c s1 c1 ->
  exists run, s = run ++ s1 /\ all_units p run = true /\ c1 = c.
Proof.
  intros M. remember (Star (Cls p)) as r eqn:Er.
  induction M as [| | | | | |r s c|r s c sa ca sb cb M1 _ M2 IH|]; try discriminate.
  - by exists EmptyString.
  - inversion Er; subst r.
    inversion M1 as [| |? d ? ? Hd| | | | | |]; subst.
    destruct (IH eq_refl) as (run & -> & Hall & ->).
    exists (String d run). rewrite append_String. simpl. by rewrite Hd, Hall.
Qed.

Lemma matches_Plus_Cls (icase : bool) (p : ascii -> bool) (s s1 : string)
    (c c1 : captures) :
  matches icase (Plus (Cls p)) s c s1 c1 ->
  exists d run, s = String d run ++ s1 /\ all_units p (String d run) = true /\
                c1 = c.
Proof.
  intros M. inversion M as [| | |? ? ? ? sa ca ? ? ML MR| | | | |]; subst.
  inversion ML as [| |? d ? ? Hd| | | | | |]; subst.
  apply matches_Star_Cls in MR as (run & -> & Hall & ->).
  exists d, run. rewrite append_String. simpl. by rewrite Hd, Hall.
Qed.

Lemma nonempty_String (d : ascii) (s : string) : String d s <> EmptyString.
Proof. discriminate. Qed.

Lemma reddit_match_parts (u : string) (m : captures) :
  str_match u reddit_re = Some m ->
  exists before sub id rest,
    u = before ++ "reddit.com/r/" ++ sub ++ "/comments/" ++ id ++ rest /\
    sub <> EmptyString /\ id <> EmptyString /\
    all_units not_slash sub = true /\ all_units not_slash id = true /\
    group m 1 = Some id.
Proof.
  intros H. unfold str_match in H. apply rsearch_at in H as (before & s0 & s1 & c1 & -> & M & ->).
  change (re_ignoreCase reddit_re) with false in M.
  change (re_body reddit_re) with
    (Seq (Str "reddit.com/r/")
       (Seq (Plus (Cls not_slash))
          (Seq (Str "/comments/") (Group 1 (Plus (Cls not_slash)))))) in M.
  inversion M as [| | |? ? ? ? sa ca ? ? M1 M2| | | | |]; subst.
  apply (matches_Str "reddit.com/r/") in M1 as [-> ->].
  inversion M2 as [| | |? ? ? ? sb cb ? ? M3 M4| | | | |]; subst.
  apply matches_Plus_Cls in M3 as (d & run & -> & Hsub & ->).
  inversion M4 as [| | |? ? ? ? sc cc ? ? M5 M6| | | | |]; subst.
  apply (matches_Str "/comments/") in M5 as [-> ->].
  inversion M6 as [| | | | | | | |? ? ? ? ? cd M7]; subst.
  apply matches_Plus_Cls in M7 as (d2 & run2 & -> & Hid & ->).
  rewrite consumed_append.
  exists before, (String d run), (String d2 run2), s1.
  repeat split; auto using nonempty_String.
Qed.

Lemma twitter_match_parts (u : string) (m : captures) :
  str_match u twitter_re = Some m ->
  exists before host user id rest,
    (host = "twitter.com/" \/ host = "x.com/") /\
    u = before ++ host ++ user ++ "/status/" ++ id ++ rest /\
    user <> EmptyString /\ id <> EmptyString /\
    all_units not_slash user = true /\ all_units digit id = true /\
    tweet_id m = Some id.
Proof.
  intros H. unfold str_match in H. apply rsearch_at in H as (before & s0 & s1 & c1 & -> & M & ->).
  change (re_ignoreCase twitter_re) with false in M.
  change (re_body twitter_re) with
    (Alt (Seq (Str "twitter.com/")
            (Seq (Plus (Cls not_slash))
               (Seq (Str "/status/") (Group 1 (Plus (Cls digit))))))
         (Seq (Str "x.com/")
            (Seq (Plus (Cls not_slash))
               (Seq (Str "/status/") (Group 2 (Plus (Cls digit))))))) in M.
  inversion M as [| | | |? ? ? ? ? ? MA|? ? ? ? ? ? MA| | |]; subst.
  - inversion MA as [| | |? ? ? ? sa ca ? ? M1 M2| | | | |]; subst.
    apply (matches_Str "twitter.com/") in M1 as [-> ->].
    inversion M2 as [| | |? ? ? ? sb cb ? ? M3 M4| | | | |]; subst.
    apply matches_Plus_Cls in M3 as (d & run & -> & Hsub & ->).
    inversion M4 as [| | |? ? ? ? sc cc ? ? M5 M6| | | | |]; subst.
    apply (matches_Str "/status/") in M5 as [-> ->].
    inversion M6 as [| | | | | | | |? ? ? ? ? cd M7]; subst.
    apply matches_Plus_Cls in M7 as (d2 & run2 & -> & Hid & ->).
    rewrite consumed_append.
    exists before, "twitter.com/", (String d run), (String d2 run2), s1.
    repeat split; auto using nonempty_String.
  - inversion MA as [| | |? ? ? ? sa ca ? ? M1 M2| | | | |]; subst.
    apply (matches_Str "x.com/") in M1 as [-> ->].
    inversion M2 as [| | |? ? ? ? sb cb ? ? M3 M4| | | | |]; subst.
    apply matches_Plus_Cls in M3 as (d & run & -> & Hsub & ->).
    inversion M4 as [| | |? ? ? ? sc cc ? ? M5 M6| | | | |]; subst.
    apply (matches_Str "/status/") in M5 as [-> ->].
    inversion M6 as [| | | | | | | |? ? ? ? ? cd M7]; subst.
    apply matches_Plus_Cls in M7 as (d2 & run2 & -> & Hid & ->).
    rewrite consumed_append.
    exists before, "x.com/", (String d run), (String d2 run2), s1.
    repeat split; auto using nonempty_String.
Qed.

(** ** The URL patterns of the fetchers *)

Section Patterns.

Variable config : Config.

Lemma requests_fetch_first {B : Type} (w : Upstream) (req : Request)
    (f : Response -> Async B) (h : js_exn -> Async B) :
  requests w (try_catch (bind (fetch req) f) h) =
    req :: requests w (try_catch (bind (settle (on_fetch w req)) f) h).
Proof. reflexivity. Qed.

(** X7.
    When the Reddit fetcher accepts a URL, the URL spells
    [reddit.com/r/<sub>/comments/<id>] in lower case, with [<sub>] and [<id>]
    non-empty and free of slashes, and the one request it issues is the GET
    of [https://www.reddit.com/comments/<id>.json] with that very [<id>]. *)
Theorem reddit_request_shape (u : string) (m : captures) :
  str_match u reddit_re = Some m ->
  exists before sub id rest,
    u = before ++ "reddit.com/r/" ++ sub ++ "/comments/" ++ id ++ rest /\
    sub <> EmptyString /\ id <> EmptyString /\
    all_units not_slash sub = true /\ all_units not_slash id = true /\
    forall w,
      requests w (getRedditMetrics u) =
        [{| req_url := "https://www.reddit.com/comments/" ++ id ++ ".json";
            req_method := "GET";
            req_headers :=
              [("User-Agent",
                "SocialMonitor-AI/1.0 (Social Media Analytics Tool)");
               ("Accept", "application/json")];
            req_body := None |}].
Proof.
  intros H.
  destruct (reddit_match_parts u m H)
    as (before & sub & id & rest & E & Hs & Hi & Hsub & Hid & Hg).
  exists before, sub, id, rest. repeat split; auto.
  intros w. unfold getRedditMetrics, getRedditMetrics_try. rewrite H, Hg.
  unfold mbind, Async_bind. rewrite requests_fetch_first. f_equal.
  apply fetchless_requests, fetchless_try_catch; [|apply failure_fetchless].
  fetchless_body.
Qed.

(** X8.
    When the Twitter fetcher accepts a URL, the URL spells
    [twitter.com/<user>/status/<id>] or [x.com/<user>/status/<id>] in lower
    case, with [<id>] a non-empty run of digits, and the one request it
    issues asks the search proxy about that very [<id>]. *)
Theorem twitter_request_shape (u : string) (m : captures) :
  str_match u twitter_re = Some m ->
  exists before host user id rest,
    (host = "twitter.com/" \/ host = "x.com/") /\
    u = before ++ host ++ user ++ "/status/" ++ id ++ rest /\
    user <> EmptyString /\ id <> EmptyString /\
    all_units not_slash user = true /\ all_units digit id = true /\
    forall w,
      requests w (getTwitterMetrics config u) =
        [serper_search config
           ("site:twitter.com OR site:x.com " ++ dquote ++ id ++ dquote ++
            " engagement metrics")].
Proof.
  intros H.
  destruct (twitter_match_parts u m H)
    as (before & host & user & id & rest & Hh & E & Hu & Hi & Huser & Hid & Hg).
  exists before, host, user, id, rest. repeat split; auto.
  intros w. unfold getTwitterMetrics, getTwitterMetrics_try. rewrite H, Hg.
  unfold mbind, Async_bind. rewrite requests_fetch_first. f_equal.
  apply fetchless_requests, fetchless_try_catch; [|apply failure_fetchless].
  fetchless_body.
Qed.

Lemma twitter_invalid_url (u : string) (w : Upstream) :
  str_match u twitter_re = None ->
  run w (getTwitterMetrics config u) =
    Value (failure_record "twitter" u (clock w) "Invalid Twitter/X URL format") /\
  requests w (getTwitterMetrics config u) = [].
Proof.
  intros H. unfold getTwitterMetrics, getTwitterMetrics_try. rewrite H.
  split; reflexivity.
Qed.

(** X9.
    The dispatcher looks for the platform in the lower-cased URL, but the
    patterns of the fetchers are matched against the URL as given: a URL
    without a lower-case [reddit.com/r/] is refused by the Reddit fetcher,
    and one without a lower-case [twitter.com/] or [x.com/] by the Twitter
    fetcher, each with its "Invalid ... URL format" failure and without any
    request. *)
Theorem patterns_are_case_sensitive (u : string) (w : Upstream) :
  (includes u "reddit.com/r/" = false ->
   run w (getRedditMetrics u) =
     Value (failure_record "reddit" u (clock w) "Invalid Reddit URL format") /\
   requests w (getRedditMetrics u) = []) /\
  (includes u "twitter.com/" = false -> includes u "x.com/" = false ->
   run w (getTwitterMetrics config u) =
     Value (failure_record "twitter" u (clock w)
              "Invalid Twitter/X URL format") /\
   requests w (getTwitterMetrics config u) = []).
Proof.
  split.
  - intros Hno. apply reddit_invalid_url.
    destruct (str_match u reddit_re) as [m|] eqn:E; [|done].
    destruct (reddit_match_parts u m E) as (before & sub & id & rest & -> & _).
    assert (includes (before ++ "reddit.com/r/" ++ sub ++ "/comments/" ++ id ++ rest)
              "reddit.com/r/" = true) as Hin
      by (apply includes_iff; eauto).
    congruence.
  - intros Hno1 Hno2. apply twitter_invalid_url.
    destruct (str_match u twitter_re) as [m|] eqn:E; [|done].
    destruct (twitter_match_parts u m E)
      as (before & host & user & id & rest & [-> | ->] & -> & _).
    + assert (includes (before ++ "twitter.com/" ++ user ++ "/status/" ++ id ++ rest)
                "twitter.com/" = true) as Hin
        by (apply includes_iff; eauto).
      congruence.
    + assert (includes (before ++ "x.com/" ++ user ++ "/status/" ++ id ++ rest)
                "x.com/" = true) as Hin
        by (apply includes_iff; eauto).
      congruence.
Qed.

End Patterns.

(** ** The counts read off a snippet *)



Lemma all_units_append (p : ascii -> bool) (a b : string) :
  all_units p (a ++ b) = all_units p a && all_units p b.
Proof.
  induction a as [|c a IH]; [done|].
  rewrite append_String. simpl. by rewrite IH, andb_assoc.
Qed.







(** ** The fetchers on what the upstream sends *)

Section Upstream.

Variable config : Config.


(** X12.
    How each fetcher reports an upstream that fails, once its URL is
    accepted: a [fetch] that rejects gives the failure record with the
    message of the rejection; a status outside 2xx gives "Reddit API
    error: " or "Serper API error: " followed by the status text, the body
    not being read; a body that does not parse gives the message of the
    parse error. *)
Theorem upstream_failures (u : string) (w : Upstream) :
  let report := upstream_report w u in
  (forall m, str_match u reddit_re = Some m ->
     forall req, requests w (getRedditMetrics u) = [req] ->
       report "reddit" "Reddit" req (run w (getRedditMetrics u))) /\
  (forall req, requests w (getQuoraMetrics config u) = [req] ->
     report "quora" "Serper" req (run w (getQuoraMetrics config u))) /\
  (forall m, str_match u twitter_re = Some m ->
     forall req, requests w (getTwitterMetrics config u) = [req] ->
       report "twitter" "Serper" req (run w (getTwitterMetrics config u))).
Proof.
  intros report. unfold report, upstream_report. split; [|split].
  - intros m Hm req. unfold getRedditMetrics, getRedditMetrics_try. rewrite Hm.
    unfold mbind, Async_bind. rewrite requests_fetch_first.
    intros E. inversion E as [[Er E']]. clear E E'.
    rewrite run_try_catch, run_bind. simpl.
    destruct (on_fetch w _) as [resp|e]; simpl; [|by destruct e].
    destruct (ok resp); simpl; [|done].
    rewrite run_bind. simpl.
    destruct (on_json w resp) as [d|e]; simpl; [done | by destruct e].
  - intros req. unfold getQuoraMetrics, getQuoraMetrics_try.
    unfold mbind, Async_bind. rewrite requests_fetch_first.
    intros E. inversion E as [[Er E']]. clear E E'.
    rewrite run_try_catch, run_bind. simpl.
    destruct (on_fetch w _) as [resp|e]; simpl; [|by destruct e].
    destruct (ok resp); simpl; [|done].
    rewrite run_bind. simpl.
    destruct (on_json w resp) as [d|e]; simpl; [done | by destruct e].
  - intros m Hm req. unfold getTwitterMetrics, getTwitterMetrics_try. rewrite Hm.
    unfold mbind, Async_bind. rewrite requests_fetch_first.
    intros E. inversion E as [[Er E']]. clear E E'.
    rewrite run_try_catch, run_bind. simpl.
    destruct (on_fetch w _) as [resp|e]; simpl; [|by destruct e].
    destruct (ok resp); simpl; [|done].
    rewrite run_bind. simpl.
    destruct (on_json w resp) as [d|e]; simpl; [done | by destruct e].
Qed.

End Upstream.

(** ** The matcher on a formatted number *)







Lemma comma_not_digit : digit "," = false.
Proof. reflexivity. Qed.













(** ** The metrics store over its history *)

Section StoreHistory.

Import MemStorage.

Lemma map_set_fresh (k : Z) (v : SocialMetric) (m : NumberMap) :
  (forall p, In p m -> fst p <> k) -> map_set k v m = (m ++ [(k, v)])%list.
Proof.
  induction m as [|[k' v'] m IH]; simpl; intros H; [done|].
  destruct (k' =? k)%Z eqn:E.
  - apply Z.eqb_eq in E. destruct (H (k', v')); auto.
  - f_equal. apply IH. auto.
Qed.

Lemma replay_snoc (inserts : list (Z * SocialMetrics)) (p : Z * SocialMetrics) :
  replay (inserts ++ [p]) = fst (createSocialMetric (fst p) (snd p) (replay inserts)).
Proof. unfold replay. by rewrite fold_left_app. Qed.

Lemma replay_state (inserts : list (Z * SocialMetrics)) :
  socialMetrics (replay inserts) =
    imap (fun i p => (Z.of_nat i + 1, nth_row i p)%Z) inserts /\
  currentMetricId (replay inserts) = (Z.of_nat (length inserts) + 1)%Z.
Proof.
  induction inserts as [|p inserts [IH1 IH2]] using rev_ind; [done|].
  rewrite replay_snoc. simpl. rewrite IH2. split.
  - rewrite map_set_fresh.
    + rewrite IH1, imap_app. simpl. by rewrite Nat.add_0_r.
    + intros q Hq. rewrite IH1 in Hq. apply list_elem_of_In in Hq.
      apply elem_of_lookup_imap in Hq as (i & x & -> & Hx). simpl.
      apply lookup_lt_Some in Hx. lia.
  - rewrite length_app. simpl. lia.
Qed.

(** X14.
    The history of metrics is an append-only log: after any inserts the
    store holds exactly one row per insert, in insert order, the [i]-th
    with identifier [i] (from 1), the record given and the creation time
    read at the insert; an insert adds its row at the end and changes no
    earlier row, and the next identifier is one more than the number of
    inserts. *)
Theorem metrics_log_append_only (inserts : list (Z * SocialMetrics))
    (now : Z) (r : SocialMetrics) :
  let st := replay inserts in
  values (socialMetrics st) = imap nth_row inserts /\
  currentMetricId st = (Z.of_nat (length inserts) + 1)%Z /\
  let '(st', m) := createSocialMetric now r st in
  m = nth_row (length inserts) (now, r) /\
  values (socialMetrics st') = (values (socialMetrics st) ++ [m])%list /\
  st' = replay (inserts ++ [(now, r)]) /\
  length (getSocialMetrics None None st') = S (length inserts).
Proof.
  intros st. destruct (replay_state inserts) as [H1 H2]. fold st in H1, H2.
  assert (values (socialMetrics st) = imap nth_row inserts) as Hv.
  { unfold values. rewrite H1.
    change (map snd (imap (fun i p => (Z.of_nat i + 1, nth_row i p)%Z) inserts))
      with (snd <$> imap (fun i p => (Z.of_nat i + 1, nth_row i p)%Z) inserts).
    rewrite fmap_imap. by apply imap_ext. }
  split; [done|]. split; [done|].
  destruct (replay_state (inserts ++ [(now, r)])) as [G1 G2].
  rewrite replay_snoc in G1, G2. simpl in G1, G2. fold st in G1, G2.
  simpl. rewrite H2. split; [done|].
  assert (values
            (map_set (Z.of_nat (length inserts) + 1)
               {| id := Z.of_nat (length inserts) + 1; row := r;
                  createdAt := Some now |} (socialMetrics st)) =
          (values (socialMetrics st) ++
           [{| id := Z.of_nat (length inserts) + 1; row := r;
               createdAt := Some now |}])%list) as Hv'.
  { rewrite H2 in G1. rewrite G1, imap_app. unfold values.
    rewrite map_app, <- H1. simpl. by rewrite Nat.add_0_r. }
  split; [done|]. split.
  - rewrite replay_snoc. simpl. fold st. by rewrite H2.
  - unfold getSocialMetrics. simpl.
    rewrite (Permutation_length (sort_perm _ _)), Hv', length_app, Hv.
    rewrite length_imap. simpl. lia.
Qed.

Lemma head_insert_older (x m : SocialMetric) (l : list SocialMetric) :
  head l = Some m ->
  (getTime (createdAt x) < getTime (createdAt m))%Z ->
  head (insert_sorted newest_first x l) = Some m.
Proof.
  destruct l as [|y l]; simpl; [discriminate|]. intros E Hlt.
  inversion E; subst y. unfold newest_first.
  destruct (_ <=? 0)%Z eqn:C; [|done]. apply Z.leb_le in C. lia.
Qed.

Lemma head_sort_older (m : SocialMetric) (older rest : list SocialMetric) :
  Forall (fun x => (getTime (createdAt x) < getTime (createdAt m))%Z) older ->
  head (sort newest_first rest) = Some m ->
  head (sort newest_first (older ++ rest)) = Some m.
Proof.
  induction 1 as [|x older Hx _ IH]; simpl; [done|].
  intros H. apply head_insert_older; auto.
Qed.

(** X15.
    When two records of a URL are inserted at the same clock reading, later
    than every stored record of that URL, the "latest" one is the one
    inserted first: the sort is stable and ties keep their insert order. *)
Theorem latest_of_a_tie (inserts : list (Z * SocialMetrics)) (T : Z)
    (r1 r2 : SocialMetrics) (c : ascii) (rest : string) :
  url r1 = String c rest -> url r2 = String c rest ->
  (forall p, In p inserts -> url (snd p) = String c rest -> (fst p < T)%Z) ->
  getLatestMetrics (String c rest) (replay (inserts ++ [(T, r1); (T, r2)])) =
    Some (nth_row (length inserts) (T, r1)).
Proof.
  intros U1 U2 Hold.
  destruct (replay_state (inserts ++ [(T, r1); (T, r2)])) as [H1 _].
  unfold getLatestMetrics. rewrite getSocialMetrics_asks.
  unfold values. rewrite H1.
  change (map snd ?l) with (snd <$> l). rewrite fmap_imap.
  rewrite (imap_ext _ nth_row) by done.
  rewrite imap_app. simpl. rewrite !Nat.add_0_r.
  rewrite List.filter_app.
  apply head_sort_older.
  - apply Forall_forall. intros x Hx. apply list_elem_of_In in Hx.
    apply filter_In in Hx as [Hx Hsel].
    apply list_elem_of_In, elem_of_lookup_imap in Hx as (i & p & -> & Lp).
    simpl in Hsel. rewrite andb_true_r in Hsel. apply String.eqb_eq in Hsel.
    simpl. apply Hold; [|done].
    apply list_elem_of_In, list_elem_of_lookup. eauto.
  - simpl. unfold row_url. simpl. rewrite U1, U2, String.eqb_refl. simpl.
    unfold newest_first. simpl.
    replace (T - T <=? 0)%Z with true by (symmetry; apply Z.leb_le; lia).
    reflexivity.
Qed.

End StoreHistory.

(** ** The other tables *)

Section TableFacts.

Import Tables.

Implicit Types (m : table) (st : Storage) (k id : Z) (v o : object).

Lemma map_get_set_eq k v m : map_get k (map_set k v m) = Some v.
Proof.
  induction m as [|[k' v'] m IH]; simpl.
  - by rewrite Z.eqb_refl.
  - destruct (k' =? k)%Z eqn:E; simpl; [by rewrite Z.eqb_refl | by rewrite E].
Qed.

Lemma map_get_set_ne k k' v m : k <> k' -> map_get k' (map_set k v m) = map_get k' m.
Proof.
  intros Hne. induction m as [|[k0 v0] m IH]; simpl.
  - destruct (k =? k')%Z eqn:E; [apply Z.eqb_eq in E; done | done].
  - destruct (k0 =? k)%Z eqn:E; simpl.
    + apply Z.eqb_eq in E as ->.
      destruct (k =? k')%Z eqn:E'; [apply Z.eqb_eq in E'; done | done].
    + by rewrite IH.
Qed.

Lemma map_get_None k m : map_get k m = None <-> ~ In k (map fst m).
Proof.
  induction m as [|[k' v'] m IH]; simpl; [tauto|].
  destruct (k' =? k)%Z eqn:E.
  - apply Z.eqb_eq in E. split; [discriminate | intros H; destruct H; auto].
  - apply Z.eqb_neq in E. rewrite IH. tauto.
Qed.

Lemma map_set_new k v m : map_get k m = None -> map_set k v m = (m ++ [(k, v)])%list.
Proof.
  induction m as [|[k' v'] m IH]; simpl; [done|].
  destruct (k' =? k)%Z; [discriminate|]. intros H. by rewrite IH.
Qed.

Lemma map_set_keys k v m :
  is_Some (map_get k m) -> map fst (map_set k v m) = map fst m.
Proof.
  induction m as [|[k' v'] m IH]; simpl; [by intros [? ?]|].
  destruct (k' =? k)%Z eqn:E; simpl.
  - apply Z.eqb_eq in E. by subst.
  - intros H. by rewrite IH.
Qed.

Lemma map_delete_found k m :
  snd (map_delete k m) = true <-> is_Some (map_get k m).
Proof.
  induction m as [|[k' v'] m IH]; simpl.
  - split; [discriminate | by intros [? ?]].
  - destruct (k' =? k)%Z; simpl; [by split; eauto|].
    destruct (map_delete k m) as [rest found]. simpl in *. exact IH.
Qed.

Lemma map_delete_keys k m :
  forall x, In x (map fst (fst (map_delete k m))) -> In x (map fst m).
Proof.
  induction m as [|[k' v'] m IH]; simpl; [done|].
  destruct (k' =? k)%Z; simpl; [auto|].
  destruct (map_delete k m) as [rest found]. simpl in *.
  intros x [<-|H]; auto.
Qed.

Lemma map_delete_get_eq k m :
  NoDup (map fst m) -> map_get k (fst (map_delete k m)) = None.
Proof.
  induction m as [|[k' v'] m IH]; simpl; [done|].
  intros Hnd. apply NoDup_cons in Hnd as [Hnot Hnd].
  destruct (k' =? k)%Z eqn:E; simpl.
  - apply Z.eqb_eq in E as ->. apply map_get_None.
    intros H. apply Hnot. by apply list_elem_of_In.
  - destruct (map_delete k m) as [rest found] eqn:D. simpl in *.
    rewrite E. by apply IH.
Qed.

Lemma map_delete_get_ne k k' m :
  k <> k' -> map_get k' (fst (map_delete k m)) = map_get k' m.
Proof.
  intros Hne. induction m as [|[k0 v0] m IH]; simpl; [done|].
  destruct (k0 =? k)%Z eqn:E; simpl.
  - apply Z.eqb_eq in E as ->.
    destruct (k =? k')%Z eqn:E'; [apply Z.eqb_eq in E'; done | done].
  - destruct (map_delete k m) as [rest found]. simpl in *. by rewrite IH.
Qed.

Lemma map_delete_NoDup k m : NoDup (map fst m) -> NoDup (map fst (fst (map_delete k m))).
Proof.
  induction m as [|[k' v'] m IH]; simpl; [done|].
  intros Hnd. apply NoDup_cons in Hnd as [Hnot Hnd].
  destruct (k' =? k)%Z; simpl; [done|].
  pose proof (map_delete_keys k m) as Hk.
  destruct (map_delete k m) as [rest found]. simpl in *.
  apply NoDup_cons. split; [|by apply IH].
  intros H. apply Hnot. apply list_elem_of_In, Hk. by apply list_elem_of_In.
Qed.

Lemma keys_below_get n m k : keys_below n m -> (n <= k)%Z -> map_get k m = None.
Proof.
  intros [_ Hb] Hk. apply map_get_None. intros H. apply Hb in H. lia.
Qed.

Lemma keys_below_add n m v : keys_below n m -> keys_below (n + 1) (map_set n v m).
Proof.
  intros Hk. pose proof (keys_below_get n m n Hk (Z.le_refl n)) as Hnone.
  destruct Hk as [Hnd Hb]. unfold keys_below.
  rewrite (map_set_new _ _ _ Hnone), map_app. simpl.
  split.
  - apply NoDup_app. split; [done|]. split; [|apply NoDup_singleton].
    intros x Hx Hx'. apply list_elem_of_In in Hx. apply Hb in Hx.
    apply list_elem_of_singleton in Hx'. lia.
  - intros k Hin. apply in_app_or in Hin as [Hin|[<-|[]]]; [|lia].
    apply Hb in Hin. lia.
Qed.

Lemma perform_well_keyed (c : call) st : well_keyed st -> well_keyed (perform c st).
Proof.
  intros (Hu & Ha & Hs & Hr).
  destruct c as [o|now o|id o|id|now o|now o]; simpl.
  - repeat split; try apply Hu || apply Ha || apply Hs || apply Hr;
      apply (keys_below_add _ _ _ Hu).
  - repeat split; try apply Hu || apply Ha || apply Hs || apply Hr;
      apply (keys_below_add _ _ _ Ha).
  - unfold updateAlert. destruct (map_get id (alerts st)) as [a|] eqn:E; simpl.
    + split; [done|]. split; [|done].
      unfold keys_below. simpl. rewrite map_set_keys by eauto. exact Ha.
    + done.
  - unfold deleteAlert.
    pose proof (map_delete_NoDup id (alerts st) (proj1 Ha)) as Hnd.
    pose proof (map_delete_keys id (alerts st)) as Hk.
    destruct (map_delete id (alerts st)) as [m found]. simpl in *.
    split; [done|]. split; [|done]. split; [done|].
    intros k Hin. apply Ha. auto.
  - repeat split; try apply Hu || apply Ha || apply Hs || apply Hr;
      apply (keys_below_add _ _ _ Hs).
  - repeat split; try apply Hu || apply Ha || apply Hs || apply Hr;
      apply (keys_below_add _ _ _ Hr).
Qed.

Lemma well_keyed_empty : well_keyed empty.
Proof. repeat split; simpl; try constructor; intros ? []. Qed.

Lemma history_well_keyed (calls : list call) : forall st,
  well_keyed st -> well_keyed (history calls st).
Proof.
  induction calls as [|c calls IH]; simpl; intros st H; [done|].
  apply IH, perform_well_keyed, H.
Qed.

End TableFacts.

(** ** Users *)

Section TableTheorems.

Import Tables.

Implicit Types (m : table) (st : Storage) (k id : Z) (v o : object).

Lemma is_string_eq (x : value) (s : string) : is_string x s = true <-> x = VStr s.
Proof.
  destruct x; simpl; try (split; [discriminate | discriminate]).
  rewrite String.eqb_eq. split; congruence.
Qed.

Lemma map_get_In k v m : NoDup (map fst m) -> In (k, v) m -> map_get k m = Some v.
Proof.
  induction m as [|[k' v'] m IH]; simpl; [done|].
  intros Hnd. apply NoDup_cons in Hnd as [Hnot Hnd].
  intros [E|Hin].
  - inversion E; subst. by rewrite Z.eqb_refl.
  - destruct (k' =? k)%Z eqn:E; [|by apply IH].
    apply Z.eqb_eq in E as ->. destruct Hnot.
    apply list_elem_of_In. apply (in_map fst) in Hin. exact Hin.
Qed.

Lemma map_get_values k v m : map_get k m = Some v -> In v (map_values m).
Proof.
  induction m as [|[k' v'] m IH]; simpl; [done|].
  destruct (k' =? k)%Z; [intros E; inversion E; auto | auto].
Qed.

Lemma history_keys (calls : list call) : well_keyed (history calls empty).
Proof. apply history_well_keyed, well_keyed_empty. Qed.

(** X16.
    Creating a user and reading it back.  After any history of calls,
    [createUser] stores the insert object with the next identifier as its
    [id] (whatever [id] the insert object carried), under an identifier no
    user had; [getUser] of that identifier returns the new user, every other
    identifier reads as before, and the counter moves on by one. *)
Theorem createUser_getUser (calls : list call) (insertUser : object) :
  let st := history calls empty in
  let id := currentUserId st in
  let '(st', user) := createUser insertUser st in
  getUser id st = None /\
  getUser id st' = Some user /\
  prop user "id" = VNum id /\
  (forall key, key <> "id" -> user !! key = insertUser !! key) /\
  (forall k, k <> id -> getUser k st' = getUser k st) /\
  currentUserId st' = (id + 1)%Z /\
  map_values (users st') = (map_values (users st) ++ [user])%list.
Proof.
  intros st id. simpl.
  destruct (history_keys calls) as (Hu & _). fold st in Hu.
  assert (map_get id (users st) = None) as Hnone
    by (eapply keys_below_get; [exact Hu | unfold id; lia]).
  unfold getUser. simpl. repeat split; auto.
  - apply map_get_set_eq.
  - unfold prop. by rewrite lookup_insert_eq.
  - intros key Hk. by rewrite lookup_insert_ne.
  - intros k Hk. by apply map_get_set_ne.
  - unfold map_values. by rewrite (map_set_new _ _ _ Hnone), map_app.
Qed.

(** X17.
    Looking a user up by name.  [getUserByUsername] returns a stored user
    whose [username] is the name asked for, and none only when no stored
    user has it.  Names are not kept unique: creating another user with a
    name already taken succeeds, and the lookup keeps returning the user
    that had the name first. *)
Theorem getUserByUsername_first (calls : list call) (username : string) :
  let st := history calls empty in
  match getUserByUsername username st with
  | Some user =>
      prop user "username" = VStr username /\
      (exists id, getUser id st = Some user) /\
      forall insertUser,
        let st' := fst (createUser insertUser st) in
        getUserByUsername username st' = Some user /\
        getUser (currentUserId st) st' = Some (snd (createUser insertUser st))
  | None =>
      (forall id user, getUser id st = Some user ->
                       prop user "username" <> VStr username) /\
      forall insertUser,
        insertUser !! "username" = Some (VStr username) ->
        getUserByUsername username (fst (createUser insertUser st)) =
          Some (snd (createUser insertUser st))
  end.
Proof.
  intros st. destruct (history_keys calls) as (Hu & _). fold st in Hu.
  assert (map_get (currentUserId st) (users st) = None) as Hnone
    by (eapply keys_below_get; [exact Hu | lia]).
  unfold getUserByUsername, getUser.
  destruct (find _ _) as [user|] eqn:F.
  - pose proof (find_some _ _ F) as [Hin Hname].
    apply is_string_eq in Hname. split; [done|]. split.
    + unfold map_values in Hin. apply in_map_iff in Hin as ([k u] & E & Hin).
      simpl in E. subst u. exists k. apply map_get_In; [apply Hu | done].
    + intros ins. simpl. split; [|apply map_get_set_eq].
      unfold map_values. rewrite (map_set_new _ _ _ Hnone), map_app.
      fold (map_values (users st)).
      clear -F. induction (map_values (users st)) as [|x l IH]; [done|].
      simpl in *. destruct (is_string (prop x "username") username); [done|].
      by apply IH.
  - split.
    + intros id user Hget Hname.
      apply map_get_values in Hget.
      pose proof (find_none _ _ F _ Hget) as Hno.
      apply is_string_eq in Hname. congruence.
    + intros ins Hins. simpl.
      unfold map_values. rewrite (map_set_new _ _ _ Hnone), map_app.
      fold (map_values (users st)).
      assert (is_string (prop (<["id" := VNum (currentUserId st)]> ins) "username")
                username = true) as Hnew.
      { apply is_string_eq. unfold prop.
        by rewrite lookup_insert_ne, Hins by done. }
      clear -F Hnew. induction (map_values (users st)) as [|x l IH].
      * simpl. by rewrite Hnew.
      * simpl in *. destruct (is_string (prop x "username") username);
          [discriminate|]. by apply IH.
Qed.

End TableTheorems.

(** ** Alerts *)

Ltac prop_lookup :=
  unfold Tables.prop;
  repeat (rewrite lookup_insert_ne by discriminate);
  rewrite ?lookup_insert_eq; try reflexivity.

Section AlertTheorems.

Import Tables.

Implicit Types (m : table) (st : Storage) (k id : Z) (v o : object).

Lemma coalesce_not_nullish (o : object) (key : string) (fallback : value) :
  nullish fallback = false -> nullish (coalesce o key fallback) = false.
Proof.
  intros Hf. unfold coalesce.
  destruct (nullish (prop o key)) eqn:E; [exact Hf | exact E].
Qed.

Lemma coalesce_given (o : object) (key : string) (fallback x : value) :
  o !! key = Some x -> nullish x = false -> coalesce o key fallback = x.
Proof.
  intros Hx Hn. unfold coalesce, prop. rewrite Hx. simpl. by rewrite Hn.
Qed.

Lemma coalesce_missing (o : object) (key : string) (fallback : value) :
  o !! key = None -> coalesce o key fallback = fallback.
Proof. intros Hx. unfold coalesce, prop. by rewrite Hx. Qed.

(** X18.
    What a new alert looks like.  After any history of calls, [createAlert]
    returns an alert stored under the next identifier, which no alert had;
    the alert is active, has never run, carries the creation time and that
    identifier whatever the insert object said about them; its seven
    optional settings are those of the insert object where it gives a value
    and the documented defaults where it gives none or a nullish one, so
    none of the four with a non-null default is ever nullish; every other
    property is the insert object's; the alert comes last in [getAlerts]
    and no other alert changes. *)
Theorem createAlert_fields (calls : list call) (now : Z) (insertAlert : object) :
  let st := history calls empty in
  let id := currentAlertId st in
  let '(st', alert) := createAlert now insertAlert st in
  getAlert id st = None /\
  getAlert id st' = Some alert /\
  getAlerts st' = (getAlerts st ++ [alert])%list /\
  (forall k, k <> id -> getAlert k st' = getAlert k st) /\
  prop alert "id" = VNum id /\
  prop alert "isActive" = VBool true /\
  prop alert "createdAt" = VNum now /\
  prop alert "lastRun" = VNull /\
  prop alert "maxResults" = coalesce insertAlert "maxResults" (VNum 10) /\
  prop alert "minOpportunityScore" =
    coalesce insertAlert "minOpportunityScore" (VStr "medium") /\
  prop alert "includeNegativeSentiment" =
    coalesce insertAlert "includeNegativeSentiment" (VBool false) /\
  prop alert "emailNotifications" =
    coalesce insertAlert "emailNotifications" (VBool true) /\
  prop alert "email" = coalesce insertAlert "email" VNull /\
  prop alert "reportUrl" = coalesce insertAlert "reportUrl" VNull /\
  prop alert "webhookUrl" = coalesce insertAlert "webhookUrl" VNull /\
  (forall key, In key ["maxResults"; "minOpportunityScore";
                       "includeNegativeSentiment"; "emailNotifications"] ->
               nullish (prop alert key) = false) /\
  (forall key, In key ["email"; "reportUrl"; "webhookUrl"] ->
               prop alert key <> VUndefined) /\
  (forall key, ~ In key ["maxResults"; "minOpportunityScore";
                         "includeNegativeSentiment"; "emailNotifications";
                         "email"; "reportUrl"; "webhookUrl"; "isActive"; "id";
                         "createdAt"; "lastRun"] ->
               alert !! key = insertAlert !! key).
Proof.
  intros st id. simpl.
  destruct (history_keys calls) as (_ & Ha & _). fold st in Ha.
  assert (map_get id (alerts st) = None) as Hnone
    by (eapply keys_below_get; [exact Ha | unfold id; lia]).
  unfold getAlert, getAlerts. simpl.
  split; [exact Hnone|]. split; [apply map_get_set_eq|].
  split; [unfold map_values; by rewrite (map_set_new _ _ _ Hnone), map_app|].
  split; [intros k Hk; by apply map_get_set_ne|].
  repeat (split; [by prop_lookup|]).
  split; [|split].
  - intros key Hin. simpl in Hin.
    destruct Hin as [<-|[<-|[<-|[<-|[]]]]]; prop_lookup;
      by apply coalesce_not_nullish.
  - intros key Hin. simpl in Hin.
    destruct Hin as [<-|[<-|[<-|[]]]]; prop_lookup; simpl;
      unfold coalesce; (destruct (nullish (prop insertAlert _)) eqn:E;
        [discriminate | intros Hu; rewrite Hu in E; discriminate]).
  - intros key Hnot. simpl in Hnot.
    repeat (rewrite lookup_insert_ne; [|intros <-; tauto]). done.
Qed.

(** X19.
    Updating an alert.  An update of an identifier with no alert returns
    nothing and leaves the store as it was.  Otherwise the stored alert
    becomes the old one overlaid with the update: each property the update
    has takes its value, each other property keeps the old one; the alert
    stays under the same key and at the same place of [getAlerts], even when
    the update carries another [id]; no other alert and no other table
    changes. *)
Theorem updateAlert_overlays (st : Storage) (id : Z) (alertUpdate : object) :
  match getAlert id st with
  | None => updateAlert id alertUpdate st = (st, None)
  | Some existingAlert =>
      exists st' updatedAlert,
        updateAlert id alertUpdate st = (st', Some updatedAlert) /\
        getAlert id st' = Some updatedAlert /\
        (forall key x, alertUpdate !! key = Some x ->
                       updatedAlert !! key = Some x) /\
        (forall key, alertUpdate !! key = None ->
                     updatedAlert !! key = existingAlert !! key) /\
        (forall k, k <> id -> getAlert k st' = getAlert k st) /\
        map fst (alerts st') = map fst (alerts st) /\
        length (getAlerts st') = length (getAlerts st) /\
        users st' = users st /\
        searchResults st' = searchResults st /\
        generatedReplies st' = generatedReplies st /\
        currentAlertId st' = currentAlertId st
  end.
Proof.
  unfold getAlert, updateAlert.
  destruct (map_get id (alerts st)) as [existing|] eqn:Hget; [|done].
  eexists _, _. split; [reflexivity|]. simpl.
  split; [apply map_get_set_eq|].
  split; [intros key x Hx; by apply lookup_union_Some_l|].
  split; [intros key Hx; by apply lookup_union_r|].
  split; [intros k Hk; by apply map_get_set_ne|].
  assert (map fst (map_set id (alertUpdate ∪ existing) (alerts st)) =
          map fst (alerts st)) as Hkeys
    by (apply map_set_keys; by rewrite Hget).
  split; [exact Hkeys|].
  split; [|done].
  unfold getAlerts, map_values. simpl.
  rewrite !length_map. apply (f_equal length) in Hkeys.
  by rewrite !length_map in Hkeys.
Qed.

Lemma deleted_stays_deleted (id : Z) (later : list call) (st : Storage) :
  well_keyed st -> (id < currentAlertId st)%Z -> getAlert id st = None ->
  getAlert id (history later st) = None.
Proof.
  revert st. induction later as [|c later IH]; intros st Hwk Hlt Hnone; [done|].
  simpl. apply IH.
  - by apply perform_well_keyed.
  - destruct c; simpl; try done; try lia.
    + unfold updateAlert. by destruct (map_get _ _).
    + unfold deleteAlert. by destruct (map_delete _ _).
  - unfold getAlert in *. destruct c; simpl; try done.
    + rewrite map_get_set_ne by lia. exact Hnone.
    + unfold updateAlert.
      destruct (map_get id0 (alerts st)) eqn:E; [|done]. simpl.
      destruct (decide (id0 = id)) as [->|Hne]; [congruence|].
      by rewrite map_get_set_ne.
    + unfold deleteAlert.
      destruct (map_delete id0 (alerts st)) as [m found] eqn:E. simpl.
      replace m with (fst (map_delete id0 (alerts st))) by (by rewrite E).
      destruct (decide (id0 = id)) as [->|Hne].
      * apply map_delete_get_eq. apply Hwk.
      * by rewrite map_delete_get_ne.
Qed.

(** X20.
    Deleting an alert.  After any history of calls, [deleteAlert] answers
    whether the identifier had an alert; afterwards it has none, every other
    alert is as before, and the counter is untouched.  When an alert was
    deleted the identifier is never used again: whatever calls follow
    (creations, updates, further deletions), it still has no alert, and an
    update of it returns nothing. *)
Theorem deleteAlert_final (calls later : list call) (id : Z) :
  let st := history calls empty in
  let '(st1, found) := deleteAlert id st in
  (found = true <-> is_Some (getAlert id st)) /\
  getAlert id st1 = None /\
  (forall k, k <> id -> getAlert k st1 = getAlert k st) /\
  currentAlertId st1 = currentAlertId st /\
  (found = false -> st1 = st) /\
  (found = true ->
     getAlert id (history later st1) = None /\
     forall alertUpdate,
       snd (updateAlert id alertUpdate (history later st1)) = None).
Proof.
  intros st.
  pose proof (history_keys calls) as Hwk. fold st in Hwk.
  pose proof (perform_well_keyed (DeleteAlert id) st Hwk) as Hwk1.
  simpl in Hwk1. unfold deleteAlert in *.
  destruct (map_delete id (alerts st)) as [m found] eqn:E. simpl in Hwk1.
  assert (m = fst (map_delete id (alerts st))) as Hm by (by rewrite E).
  assert (found = snd (map_delete id (alerts st))) as Hf by (by rewrite E).
  destruct Hwk as (Hu & Ha & Hrest).
  unfold getAlert. simpl.
  assert (map_get id m = None) as Hgone
    by (rewrite Hm; apply map_delete_get_eq, Ha).
  split.
  { rewrite Hf. apply map_delete_found. }
  split; [exact Hgone|].
  split; [intros k Hk; rewrite Hm; by apply map_delete_get_ne|].
  split; [done|].
  split.
  { intros ->. destruct st; unfold set_alerts; simpl in *. f_equal.
    rewrite Hm. clear -Hf. symmetry in Hf.
    induction alerts0 as [|[k v] l IH]; [done|]. simpl in *.
    destruct (k =? id)%Z; [discriminate|].
    destruct (map_delete id l) as [l' f']. simpl in *. by rewrite IH. }
  intros ->.
  assert (id < currentAlertId st)%Z as Hlt.
  { assert (is_Some (map_get id (alerts st))) as [x Hx]
      by (apply map_delete_found; by rewrite <- Hf).
    destruct Ha as (_ & Hb). apply Hb.
    clear -Hx. induction (alerts st) as [|[k v] l IH]; [done|]. simpl in *.
    destruct (k =? id)%Z eqn:E; [left; by apply Z.eqb_eq | right; auto]. }
  assert (getAlert id (history later (set_alerts m st)) = None) as Hlater
    by (apply deleted_stays_deleted; [exact Hwk1 | exact Hlt | exact Hgone]).
  split; [exact Hlater|].
  intros upd. unfold updateAlert. unfold getAlert in Hlater. by rewrite Hlater.
Qed.

End AlertTheorems.

(** ** Generated replies and search results *)

Section ReplyTheorems.

Import Tables.

Implicit Types (m : table) (st : Storage) (k id : Z) (v o r : object).

Lemma insert_by_perm (cmp : object -> object -> Z) (x : object) (l : list object) :
  Permutation (insert_by cmp x l) (x :: l).
Proof.
  induction l as [|y l IH]; simpl; [done|].
  destruct (cmp x y <=? 0)%Z; [done|].
  rewrite IH. apply perm_swap.
Qed.

Lemma sort_by_perm (cmp : object -> object -> Z) (l : list object) :
  Permutation (sort_by cmp l) l.
Proof.
  induction l as [|x l IH]; simpl; [done|].
  by rewrite insert_by_perm, IH.
Qed.

Lemma insert_by_sorted (x : object) (l : list object) :
  StronglySorted (fun a b => (time_of b <= time_of a)%Z) l ->
  StronglySorted (fun a b => (time_of b <= time_of a)%Z)
    (insert_by newest_first x l).
Proof.
  induction 1 as [|y l Hs IH Hall]; simpl.
  - constructor; [constructor | constructor].
  - unfold newest_first at 1.
    destruct (time_of y - time_of x <=? 0)%Z eqn:E.
    + apply Z.leb_le in E. constructor; [by constructor|].
      constructor; [lia|].
      eapply Forall_impl; [exact Hall|]. simpl. intros; lia.
    + apply Z.leb_gt in E. constructor; [exact IH|].
      apply Forall_forall. intros z Hz.
      apply list_elem_of_In in Hz.
      apply (Permutation_in _ (insert_by_perm _ x l)) in Hz.
      destruct Hz as [<-|Hz]; [lia|].
      rewrite Forall_forall in Hall. apply Hall. by apply list_elem_of_In.
Qed.

Lemma sort_by_sorted (l : list object) :
  StronglySorted (fun a b => (time_of b <= time_of a)%Z)
    (sort_by newest_first l).
Proof.
  induction l as [|x l IH]; simpl; [constructor | by apply insert_by_sorted].
Qed.

Lemma insert_by_same_time (t : Z) (x : object) (l : list object) :
  List.filter (fun r => (time_of r =? t)%Z) (insert_by newest_first x l) =
  List.filter (fun r => (time_of r =? t)%Z) (x :: l).
Proof.
  induction l as [|y l IH]; [done|].
  simpl insert_by. unfold newest_first at 1.
  destruct (time_of y - time_of x <=? 0)%Z eqn:E; [done|].
  apply Z.leb_gt in E.
  change (List.filter ?f (y :: ?l)) with
    (if f y then y :: List.filter f l else List.filter f l).
  rewrite IH. simpl.
  destruct (time_of y =? t)%Z eqn:Ey, (time_of x =? t)%Z eqn:Ex; try done.
  apply Z.eqb_eq in Ey, Ex. lia.
Qed.

Lemma sort_by_same_time (t : Z) (l : list object) :
  List.filter (fun r => (time_of r =? t)%Z) (sort_by newest_first l) =
  List.filter (fun r => (time_of r =? t)%Z) l.
Proof.
  induction l as [|x l IH]; [done|].
  simpl sort_by. rewrite insert_by_same_time. simpl. by rewrite IH.
Qed.

Lemma map_set_In k v m k' v' :
  In (k', v') (map_set k v m) -> (k' = k /\ v' = v) \/ In (k', v') m.
Proof.
  induction m as [|[k0 v0] m IH]; simpl.
  - intros [E|[]]. inversion E. auto.
  - destruct (k0 =? k)%Z.
    + intros [E|H]; [inversion E; auto | auto].
    + intros [E|H]; [auto|]. destruct (IH H); auto.
Qed.

Lemma history_stamped (calls : list call) (st : Storage) :
  stamped (generatedReplies st) ->
  stamped (generatedReplies (history calls st)).
Proof.
  revert st. induction calls as [|c calls IH]; intros st Hst; [done|].
  simpl. apply IH. destruct c; simpl; try done.
  - unfold updateAlert. by destruct (map_get _ _).
  - unfold deleteAlert. by destruct (map_delete _ _).
  - intros k r Hin. apply map_set_In in Hin as [[-> ->]|Hin]; [|by apply Hst].
    unfold prop. split.
    + by rewrite lookup_insert_ne, lookup_insert_eq.
    + exists now0. by rewrite lookup_insert_eq.
Qed.

(** X21.
    Listing the generated replies.  After any history of calls,
    [getGeneratedReplies] returns every stored reply exactly once, newest
    first; replies created at the same instant stay in the order of their
    creation; each listed reply is the one stored under its own [id] and has
    a creation date. *)
Theorem replies_newest_first (calls : list call) :
  let st := history calls empty in
  let listed := getGeneratedReplies st in
  Permutation listed (map_values (generatedReplies st)) /\
  StronglySorted (fun a b => (time_of b <= time_of a)%Z) listed /\
  (forall t, List.filter (fun r => (time_of r =? t)%Z) listed =
             List.filter (fun r => (time_of r =? t)%Z)
               (map_values (generatedReplies st))) /\
  (forall r, In r listed ->
     exists id t, prop r "id" = VNum id /\ prop r "createdAt" = VNum t /\
                  time_of r = t /\
                  map_get id (generatedReplies st) = Some r).
Proof.
  intros st listed. unfold listed, getGeneratedReplies.
  split; [apply sort_by_perm|].
  split; [apply sort_by_sorted|].
  split; [intros t; apply sort_by_same_time|].
  intros r Hin.
  apply (Permutation_in _ (sort_by_perm _ _)) in Hin.
  unfold map_values in Hin. apply in_map_iff in Hin as ([k r'] & E & Hin).
  simpl in E. subst r'.
  assert (stamped (generatedReplies st)) as Hst
    by (apply history_stamped; intros ? ? []).
  destruct (Hst _ _ Hin) as (Hid & t & Ht).
  exists k, t. split; [done|]. split; [done|].
  split; [unfold time_of; by rewrite Ht|].
  apply map_get_In; [|done].
  destruct (history_keys calls) as (_ & _ & _ & Hr). apply Hr.
Qed.

(** X22.
    What a new reply looks like.  After any history of calls,
    [createGeneratedReply] stores the reply under the next identifier,
    stamped with that identifier and the creation time; the brand fields and
    the feedback default to null, the creativity to 0.7, the provider to
    openai and the model to gpt-4o when the insert object gives no value or
    a nullish one; every other property is the insert object's. *)
Theorem createGeneratedReply_fields (calls : list call) (now : Z)
    (insertReply : object) :
  let st := history calls empty in
  let id := currentReplyId st in
  let '(st', reply) := createGeneratedReply now insertReply st in
  map_get id (generatedReplies st) = None /\
  map_get id (generatedReplies st') = Some reply /\
  Permutation (getGeneratedReplies st') (reply :: getGeneratedReplies st) /\
  prop reply "id" = VNum id /\
  prop reply "createdAt" = VNum now /\
  prop reply "brandName" = coalesce insertReply "brandName" VNull /\
  prop reply "brandContext" = coalesce insertReply "brandContext" VNull /\
  prop reply "brandUrl" = coalesce insertReply "brandUrl" VNull /\
  prop reply "feedback" = coalesce insertReply "feedback" VNull /\
  prop reply "creativity" = coalesce insertReply "creativity" (VStr "0.7") /\
  prop reply "aiProvider" = coalesce insertReply "aiProvider" (VStr "openai") /\
  prop reply "model" = coalesce insertReply "model" (VStr "gpt-4o") /\
  (forall key, In key ["creativity"; "aiProvider"; "model"] ->
               nullish (prop reply key) = false) /\
  (forall key, ~ In key ["brandName"; "brandContext"; "brandUrl"; "creativity";
                         "aiProvider"; "model"; "feedback"; "id"; "createdAt"] ->
               reply !! key = insertReply !! key).
Proof.
  intros st id. simpl.
  destruct (history_keys calls) as (_ & _ & _ & Hr). fold st in Hr.
  assert (map_get id (generatedReplies st) = None) as Hnone
    by (eapply keys_below_get; [exact Hr | unfold id; lia]).
  split; [exact Hnone|]. split; [apply map_get_set_eq|].
  split.
  { unfold getGeneratedReplies. simpl. rewrite !sort_by_perm.
    unfold map_values. rewrite (map_set_new _ _ _ Hnone), map_app. simpl.
    by rewrite <- Permutation_cons_append. }
  repeat (split; [by prop_lookup|]).
  split.
  - intros key Hin. simpl in Hin.
    destruct Hin as [<-|[<-|[<-|[]]]]; prop_lookup;
      by apply coalesce_not_nullish.
  - intros key Hnot. simpl in Hnot.
    repeat (rewrite lookup_insert_ne; [|intros <-; tauto]). done.
Qed.

(** X23.
    The search results only grow.  After any history of calls, a further
    [createSearchResult] appends its result, stamped with the next
    identifier and the creation time, to the full listing, and to the
    listing of a type exactly when the result has that type; no other call
    changes any listing.  An empty type string lists everything, as no type
    does. *)
Theorem search_results_append_only (calls : list call) (c : call)
    (type : option string) :
  let st := history calls empty in
  getSearchResults (Some EmptyString) st = getSearchResults None st /\
  match c with
  | CreateSearchResult now insertResult =>
      let result := snd (createSearchResult now insertResult st) in
      prop result "id" = VNum (currentSearchResultId st) /\
      prop result "createdAt" = VNum now /\
      (forall key, key <> "id" -> key <> "createdAt" ->
                   result !! key = insertResult !! key) /\
      getSearchResults None (perform c st) =
        (getSearchResults None st ++ [result])%list /\
      forall t, t <> EmptyString ->
        getSearchResults (Some t) (perform c st) =
          (getSearchResults (Some t) st ++
             if is_string (prop result "type") t then [result] else [])%list
  | _ => getSearchResults type (perform c st) = getSearchResults type st
  end.
Proof.
  intros st. split; [done|].
  destruct (history_keys calls) as (_ & _ & Hs & _). fold st in Hs.
  destruct c as [o|now o|id o|id|now o|now o]; simpl; try done.
  - unfold updateAlert. by destruct (map_get _ _).
  - unfold deleteAlert. by destruct (map_delete _ _).
  - assert (map_get (currentSearchResultId st) (searchResults st) = None)
      as Hnone by (eapply keys_below_get; [exact Hs | lia]).
    split; [by prop_lookup|]. split; [by prop_lookup|].
    split; [intros key H1 H2; by rewrite !lookup_insert_ne|].
    unfold getSearchResults. simpl.
    unfold map_values. rewrite (map_set_new _ _ _ Hnone), map_app. simpl.
    split; [done|].
    intros [|ch rest] Ht; [done|].
    by rewrite List.filter_app.
Qed.

End ReplyTheorems.

(** ** The counts of a Reddit post *)

Lemma truthy_get_prop (v : value) (key : string) :
  truthy v = true ->
  exists x, get_prop v key = Value x /\
            forall post, v = VObj post -> x = field post key.
Proof.
  destruct v; simpl; try discriminate; intros _; eexists; split;
    try reflexivity; try discriminate.
  intros post E. by inversion E.
Qed.

Lemma js_or_zero (v : value) :
  (truthy v = true /\ js_or v (VNum 0) = v) \/
  (truthy v = false /\ js_or v (VNum 0) = VNum 0).
Proof. unfold js_or. destruct (truthy v); auto. Qed.

(** X24.
    The counts of a Reddit post.  For a URL of the Reddit shape and a 2xx
    answer with a JSON body, the outcome depends on what
    [data[0]?.data?.children[0]?.data] evaluates to.  A falsy value gives
    the failure "Reddit post data not found".  A truthy one gives a success
    record with exactly the four Reddit counts, stamped with the clock: each
    count is the post's field when that is truthy and 0 otherwise (a field
    that is missing, null, 0 or NaN reads as 0), and a post that is not an
    object reads as 0 everywhere. *)
Theorem reddit_metrics (u : string) (w : Upstream) (resp : Response)
    (data postData : value) :
  is_Some (str_match u reddit_re) ->
  (forall req, on_fetch w req = Value resp) ->
  ok resp = true ->
  on_json w resp = Value data ->
  reddit_postData data = Value postData ->
  if truthy postData then
    exists r,
      run w (getRedditMetrics u) = Value r /\
      platform r = "reddit" /\ url r = u /\ success r = true /\
      error r = None /\ timestamp r = clock w /\
      views (metrics r) = None /\ upvotes_quora (metrics r) = None /\
      shares (metrics r) = None /\ likes (metrics r) = None /\
      retweets (metrics r) = None /\ replies (metrics r) = None /\
      quotes (metrics r) = None /\ bookmarks (metrics r) = None /\
      Forall (fun m => exists x, m = Some x /\ (truthy x = true \/ x = VNum 0))
        [upvotes (metrics r); downvotes (metrics r); comments (metrics r);
         awards (metrics r)] /\
      (forall post, postData = VObj post ->
         upvotes (metrics r) = Some (js_or (field post "ups") (VNum 0)) /\
         downvotes (metrics r) = Some (js_or (field post "downs") (VNum 0)) /\
         comments (metrics r) =
           Some (js_or (field post "num_comments") (VNum 0)) /\
         awards (metrics r) =
           Some (js_or (field post "total_awards_received") (VNum 0))) /\
      ((forall post, postData <> VObj post) ->
         upvotes (metrics r) = Some (VNum 0) /\
         downvotes (metrics r) = Some (VNum 0) /\
         comments (metrics r) = Some (VNum 0) /\
         awards (metrics r) = Some (VNum 0))
  else
    run w (getRedditMetrics u) =
      Value (failure_record "reddit" u (clock w) "Reddit post data not found").
Proof.
  intros Hm Hf Hok Hj Hp.
  destruct (truthy postData) eqn:Ht;
    [|by apply (reddit_not_found u w resp data postData)].
  destruct Hm as [m Hm].
  destruct (truthy_get_prop postData "ups" Ht) as (ups & Hups & Fups).
  destruct (truthy_get_prop postData "downs" Ht) as (downs & Hdowns & Fdowns).
  destruct (truthy_get_prop postData "num_comments" Ht) as (nc & Hnc & Fnc).
  destruct (truthy_get_prop postData "total_awards_received" Ht)
    as (aw & Haw & Faw).
  eexists. split.
  { unfold getRedditMetrics, getRedditMetrics_try. rewrite Hm. run_simpl.
    rewrite Hf. simpl. rewrite Hok. run_simpl. rewrite Hj. run_simpl.
    rewrite Hp. simpl. rewrite Ht. simpl.
    rewrite Hups, Hdowns, Hnc, Haw. reflexivity. }
  simpl. repeat (split; [reflexivity|]).
  split; [|split].
  - repeat constructor; eexists; (split; [reflexivity|]);
      match goal with |- context [js_or ?v _] =>
        destruct (js_or_zero v) as [[? ->]|[? ->]]; auto end.
  - intros post ->.
    by rewrite (Fups post), (Fdowns post), (Fnc post), (Faw post).
  - intros Hno.
    assert (forall key x, get_prop postData key = Value x -> x = VUndefined)
      as Hund.
    { intros key x. destruct postData; simpl; congruence. }
    by rewrite (Hund _ _ Hups), (Hund _ _ Hdowns), (Hund _ _ Hnc),
      (Hund _ _ Haw).
Qed.


(** ** The metrics page *)

Section PageFacts.

Import Page.

Lemma split_lines_cons (s : string) :
  exists line more, split_lines s = line :: more.
Proof.
  destruct s as [|c rest]; simpl; [by eexists _, _|].
  destruct (unit_code c =? 10)%nat; [by eexists _, _|].
  destruct (split_lines rest); by eexists _, _.
Qed.

Lemma occurs_in_String (c : ascii) (u s : string) :
  occurs_in u s -> occurs_in u (String c s).
Proof.
  intros (b & a & ->). exists (String c b), a. by rewrite append_String.
Qed.

Lemma occurs_in_refl (s : string) : occurs_in s s.
Proof.
  exists EmptyString, EmptyString. rewrite append_Empty.
  induction s as [|c s IH]; [done|]. by rewrite append_String, <- IH.
Qed.

Lemma occurs_in_trans (a b c : string) :
  occurs_in a b -> occurs_in b c -> occurs_in a c.
Proof.
  intros (b1 & a1 & ->) (b2 & a2 & ->).
  exists (b2 ++ b1), (a1 ++ a2). by rewrite !append_assoc.
Qed.

Lemma split_lines_first (s line : string) (more : list string) :
  split_lines s = line :: more ->
  all_units not_newline line = true /\ exists after, s = line ++ after.
Proof.
  revert line more. induction s as [|c rest IH]; simpl; intros line more.
  - intros E. inversion E. split; [done|]. by exists EmptyString.
  - destruct (unit_code c =? 10)%nat eqn:Ec.
    + intros E. inversion E. split; [done|]. exists (String c rest).
      by rewrite append_Empty.
    + destruct (split_lines rest) as [|l0 m0].
      * intros E. inversion E. simpl. unfold not_newline. rewrite Ec.
        split; [done|]. destruct (split_lines_cons rest) as (? & ? & ?).
        exists rest. by rewrite append_String, append_Empty.
      * intros E. inversion E. subst.
        destruct (IH l0 more eq_refl) as [Hl (after & Hrest)].
        simpl. unfold not_newline at 1. rewrite Ec. split; [done|].
        exists after. by rewrite append_String, <- Hrest.
Qed.

Lemma split_lines_lines (s : string) :
  Forall (fun line => all_units not_newline line = true /\ occurs_in line s)
    (split_lines s).
Proof.
  induction s as [|c rest IH].
  - constructor; [|constructor]. split; [done | apply occurs_in_refl].
  - destruct (split_lines (String c rest)) as [|line more] eqn:E;
      [constructor|].
    destruct (split_lines_first _ _ _ E) as [Hl (after & Hs)].
    constructor.
    { split; [done|]. exists EmptyString, after. by rewrite append_Empty. }
    simpl in E. destruct (unit_code c =? 10)%nat.
    + inversion E. subst. eapply Forall_impl; [exact IH|]. simpl.
      intros l [H1 H2]. split; [done | by apply occurs_in_String].
    + destruct (split_lines rest) as [|l0 m0]; inversion E; subst;
        [constructor|].
      apply Forall_cons in IH as [_ IH].
      eapply Forall_impl; [exact IH|]. simpl.
      intros l [H2 H3]. split; [done | by apply occurs_in_String].
Qed.

Lemma trimStart_spec (s : string) :
  exists blanks, s = blanks ++ trimStart s /\ all_units space blanks = true /\
                 (trimStart s = EmptyString \/
                  starts_with not_space (trimStart s) = true).
Proof.
  induction s as [|c rest (blanks & E & Hb & Hs)]; simpl.
  - exists EmptyString. auto.
  - destruct (space c) eqn:Ec.
    + exists (String c blanks). rewrite append_String, <- E. simpl.
      rewrite Ec. auto.
    + exists EmptyString. rewrite append_Empty. split; [done|].
      split; [done|]. right. simpl. unfold not_space. by rewrite Ec.
Qed.

Lemma trimEnd_spec (s : string) :
  exists blanks, s = trimEnd s ++ blanks /\ all_units space blanks = true /\
                 (trimEnd s = EmptyString \/
                  ends_with not_space (trimEnd s) = true).
Proof.
  induction s as [|c rest (blanks & E & Hb & Hs)]; simpl.
  - exists EmptyString. auto.
  - destruct (trimEnd rest) as [|k kept] eqn:Et.
    + rewrite append_Empty in E. subst blanks.
      destruct (space c) eqn:Ec.
      * exists (String c rest). rewrite append_Empty. simpl. rewrite Ec. auto.
      * exists rest. rewrite append_String, append_Empty.
        split; [done|]. split; [done|]. right. simpl. unfold not_space.
        by rewrite Ec.
    + exists blanks. rewrite append_String, <- E.
      split; [done|]. split; [done|]. right.
      destruct Hs as [Hs|Hs]; [discriminate|]. exact Hs.
Qed.

Lemma trimEnd_start (s : string) :
  starts_with not_space s = true -> starts_with not_space (trimEnd s) = true.
Proof.
  destruct s as [|c rest]; [done|]. simpl. intros Hc.
  destruct (trimEnd rest); [|done].
  unfold not_space in Hc. destruct (space c) eqn:Ec; [done|]. simpl.
  unfold not_space. by rewrite Ec.
Qed.

Lemma trimEnd_empty (s : string) :
  trimEnd s = EmptyString <-> all_units space s = true.
Proof.
  induction s as [|c rest IH]; simpl; [done|].
  destruct (trimEnd rest) as [|k kept].
  - destruct (space c); simpl; [tauto|]. split; discriminate.
  - split; [discriminate|]. intros H. apply andb_true_iff in H as [_ H].
    apply IH in H. discriminate.
Qed.

Lemma trim_empty (s : string) :
  trim s = EmptyString <-> all_units space s = true.
Proof.
  unfold trim. destruct (trimStart_spec s) as (blanks & E & Hb & Hs).
  rewrite trimEnd_empty. rewrite E at 2. rewrite all_units_append, Hb. done.
Qed.

Lemma trim_sendable (line : string) :
  all_units not_newline line = true ->
  Boolean (trim line) = true ->
  sendable (trim line) /\ occurs_in (trim line) line.
Proof.
  intros Hline Hne. unfold trim in *.
  destruct (trimStart_spec line) as (b1 & E1 & Hb1 & Hs1).
  destruct (trimEnd_spec (trimStart line)) as (b2 & E2 & Hb2 & Hs2).
  assert (occurs_in (trimEnd (trimStart line)) line) as Hocc.
  { exists b1, b2. by rewrite <- E2. }
  split; [|exact Hocc].
  destruct Hs2 as [Hs2|Hs2]; [by rewrite Hs2 in Hne|].
  destruct Hs1 as [Hs1|Hs1]; [by rewrite Hs1 in Hne|].
  split; [by apply trimEnd_start|]. split; [exact Hs2|].
  destruct Hocc as (b & a & E). rewrite E in Hline.
  rewrite !all_units_append in Hline.
  by apply andb_true_iff in Hline as [_ [? _]%andb_true_iff].
Qed.

Lemma no_urls_iff (s : string) :
  List.filter Boolean (map trim (split_lines s)) = [] <->
  all_units space s = true.
Proof.
  induction s as [|c rest IH]; simpl; [done|].
  destruct (unit_code c =? 10)%nat eqn:E.
  - simpl. rewrite IH.
    assert (space c = true) as ->; [|done].
    apply Nat.eqb_eq in E. unfold space, in_range. rewrite E. done.
  - destruct (split_lines_cons rest) as (line & more & Hsplit).
    rewrite Hsplit in *. simpl in IH. simpl List.filter.
    destruct (Boolean (trim (String c line))) eqn:Hb.
    + split; [discriminate|]. intros H. apply andb_true_iff in H as [Hc Hr].
      apply IH in Hr.
      destruct (Boolean (trim line)) eqn:Hl; [discriminate|].
      assert (trim line = EmptyString) as Hl' by (by destruct (trim line)).
      apply trim_empty in Hl'.
      assert (trim (String c line) = EmptyString) as Hz
        by (apply trim_empty; simpl; by rewrite Hc, Hl').
      by rewrite Hz in Hb.
    + assert (trim (String c line) = EmptyString) as Hz
        by (by destruct (trim (String c line))).
      apply trim_empty in Hz. simpl in Hz.
      apply andb_true_iff in Hz as [Hc Hl]. rewrite Hc. simpl.
      apply trim_empty in Hl. rewrite Hl in IH. simpl in IH. exact IH.
Qed.

(** X25.
    What the bulk box sends.  [fetchBulkMetrics] asks for at least one URL
    exactly when the text is blank (white space and line breaks only).
    Otherwise it refuses more than twenty URLs, and what it posts to the
    bulk endpoint is between one and twenty URLs, each of them a piece of
    the text on one line, not empty and with no white space at either end.
    Nothing else is checked: a line is sent as it is, whatever it holds. *)
Theorem bulk_box_urls (bulkUrls : string) :
  (fetchBulkMetrics bulkUrls = Toast "Please enter at least one URL" <->
   all_units space bulkUrls = true) /\
  match fetchBulkMetrics bulkUrls with
  | Post path urls =>
      path = "/api/metrics/bulk" /\
      (1 <= length urls <= 20)%nat /\
      Forall (fun u => sendable u /\ occurs_in u bulkUrls) urls
  | Toast description =>
      description = "Please enter at least one URL" \/
      description = "Maximum 20 URLs allowed" /\
      (20 < length (split_lines bulkUrls))%nat
  end.
Proof.
  unfold fetchBulkMetrics.
  pose proof (no_urls_iff bulkUrls) as Hnone.
  pose proof (split_lines_lines bulkUrls) as Hlines.
  set (lines := split_lines bulkUrls) in *.
  set (urls := List.filter Boolean (map trim lines)) in *.
  split.
  - rewrite <- Hnone. destruct urls as [|u urls']; simpl; [done|].
    split; [|discriminate]. destruct (20 <? S (length urls'))%nat; discriminate.
  - destruct (length urls =? 0)%nat eqn:E0; [by left|].
    apply Nat.eqb_neq in E0.
    destruct (20 <? length urls)%nat eqn:E20.
    + right. split; [done|]. apply Nat.ltb_lt in E20.
      pose proof (List.filter_length_le Boolean (map trim lines)) as Hle.
      rewrite length_map in Hle. fold urls in Hle. lia.
    + apply Nat.ltb_ge in E20. split; [done|]. split; [lia|].
      apply Forall_forall. intros u Hu. apply list_elem_of_In in Hu.
      unfold urls in Hu. apply filter_In in Hu as [Hin Hb].
      apply in_map_iff in Hin as (line & <- & Hin).
      rewrite Forall_forall in Hlines.
      destruct (Hlines line) as [Hnl Hocc]; [by apply list_elem_of_In|].
      destruct (trim_sendable line Hnl Hb) as [Hs Ho].
      split; [exact Hs|]. by apply (occurs_in_trans _ line).
Qed.

(** X26.
    What the single box sends.  [fetchSingleMetrics] asks for a URL exactly
    when the text is blank, and otherwise posts the text without the white
    space at its ends: a piece of the text, not empty, that no further
    trimming changes. *)
Theorem single_box_url (url : string) :
  (fetchSingleMetrics url = Toast "Please enter a URL" <->
   all_units space url = true) /\
  (all_units space url = false ->
   exists u, fetchSingleMetrics url = Post "/api/metrics/get" [u] /\
             starts_with not_space u = true /\
             ends_with not_space u = true /\
             occurs_in u url /\ trim u = u).
Proof.
  unfold fetchSingleMetrics.
  pose proof (trim_empty url) as He.
  destruct (trim url) as [|c rest] eqn:Et; simpl.
  - split; [tauto|]. intros H. destruct He as [He _]. rewrite He in H; done.
  - split.
    + split; [discriminate|]. intros H. apply He in H. discriminate.
    + intros _. eexists. split; [reflexivity|].
      unfold trim in Et.
      destruct (trimStart_spec url) as (b1 & E1 & Hb1 & Hs1).
      destruct (trimEnd_spec (trimStart url)) as (b2 & E2 & Hb2 & Hs2).
      rewrite Et in *.
      destruct Hs2 as [Hs2|Hs2]; [discriminate|].
      destruct Hs1 as [Hs1|Hs1]; [by rewrite Hs1 in Et|].
      pose proof (trimEnd_start _ Hs1) as Hstart. rewrite Et in Hstart.
      split; [exact Hstart|]. split; [exact Hs2|].
      split; [exists b1, b2; by rewrite <- E2|].
      unfold trim.
      assert (trimStart (String c rest) = String c rest) as ->.
      { simpl in *. unfold not_space in Hstart. by destruct (space c). }
      rewrite <- Et. clear. induction (trimStart url) as [|x s IH]; [done|].
      simpl. destruct (trimEnd s) as [|k kept] eqn:E.
      * destruct (space x) eqn:Ex; [done|]. simpl. by rewrite Ex.
      * simpl in *. rewrite IH. done.
Qed.

End PageFacts.

(** ** The further properties at concrete inputs *)

Lemma stopAllMonitoring_clears_witness :
  MetricsMonitor.timers
    (MetricsMonitor.stopAllMonitoring
       (MetricsMonitor.startMonitoring example_config quora_url None 8%nat
          (MetricsMonitor.startMonitoring example_config reddit_url None 7%nat
             MetricsMonitor.init))) = ∅.
Proof.
  destruct (stopAllMonitoring_clears example_config nat
              (MetricsMonitor.startMonitoring example_config quora_url None 8%nat
                 (MetricsMonitor.startMonitoring example_config reddit_url None
                    7%nat MetricsMonitor.init)))
    as (H & _).
  - apply MetricsMonitor.reach_start, MetricsMonitor.reach_start,
      MetricsMonitor.reach_init.
  - exact H.
Defined.

Lemma registry_one_timer_per_url_witness :
  MetricsMonitor.timers_for reddit_url
    (MetricsMonitor.startMonitoring example_config quora_url None 7%nat
       MetricsMonitor.init) = [].
Proof.
  pose proof (registry_one_timer_per_url example_config nat
                (MetricsMonitor.startMonitoring example_config quora_url None
                   7%nat MetricsMonitor.init) reddit_url) as H.
  assert (MetricsMonitor.intervals
            (MetricsMonitor.startMonitoring example_config quora_url None
               7%nat MetricsMonitor.init) !! reddit_url = None) as E
    by (apply lookup_insert_None; split; [reflexivity | discriminate]).
  rewrite E in H. apply H.
  apply MetricsMonitor.reach_start, MetricsMonitor.reach_init.
Defined.

Lemma startMonitoring_frame_witness :
  MetricsMonitor.intervals
    (MetricsMonitor.startMonitoring example_config reddit_url (Some 1000%Z) 8%nat
       (MetricsMonitor.startMonitoring example_config quora_url None 7%nat
          MetricsMonitor.init)) !! quora_url =
  MetricsMonitor.intervals
    (MetricsMonitor.startMonitoring example_config quora_url None 7%nat
       MetricsMonitor.init) !! quora_url.
Proof.
  destruct (startMonitoring_frame example_config nat
              (MetricsMonitor.startMonitoring example_config quora_url None
                 7%nat MetricsMonitor.init)
              reddit_url quora_url (Some 1000%Z) 8%nat) as (H & _).
  - apply MetricsMonitor.reach_start, MetricsMonitor.reach_init.
  - discriminate.
  - exact H.
Defined.

Lemma stop_after_start_keeps_run_witness :
  MetricsMonitor.inflight
    (MetricsMonitor.stopMonitoring reddit_url
       (MetricsMonitor.startMonitoring example_config reddit_url None 7%nat
          MetricsMonitor.init)) =
  [(getSocialMetrics example_config reddit_url, 7%nat)].
Proof.
  destruct (stop_after_start_keeps_run example_config nat MetricsMonitor.init
              reddit_url None 7%nat) as (_ & _ & H & _).
  - apply MetricsMonitor.reach_init.
  - exact H.
Defined.

Lemma cleared_timer_never_fires_witness :
  MetricsMonitor.timers
    (perform_all example_config
       [Start reddit_url (Some 1000%Z) 8%nat; Tick 0; StopAll]
       (MetricsMonitor.stopMonitoring reddit_url
          (MetricsMonitor.startMonitoring example_config reddit_url None 7%nat
             MetricsMonitor.init))) !! 0%nat = None.
Proof.
  destruct (cleared_timer_never_fires example_config nat
              (MetricsMonitor.startMonitoring example_config reddit_url None
                 7%nat MetricsMonitor.init)
              reddit_url 0%nat
              [Start reddit_url (Some 1000%Z) 8%nat; Tick 0; StopAll])
    as (H & _).
  - apply MetricsMonitor.reach_start, MetricsMonitor.reach_init.
  - apply lookup_insert_eq.
  - exact H.
Defined.

Lemma reddit_request_shape_witness :
  exists before sub id rest,
    reddit_url = before ++ "reddit.com/r/" ++ sub ++ "/comments/" ++ id ++ rest /\
    sub <> EmptyString /\ id <> EmptyString /\
    all_units not_slash sub = true /\ all_units not_slash id = true /\
    forall w,
      requests w (getRedditMetrics reddit_url) =
        [{| req_url := "https://www.reddit.com/comments/" ++ id ++ ".json";
            req_method := "GET";
            req_headers :=
              [("User-Agent",
                "SocialMonitor-AI/1.0 (Social Media Analytics Tool)");
               ("Accept", "application/json")];
            req_body := None |}].
Proof.
  eapply (reddit_request_shape reddit_url). vm_compute. reflexivity.
Defined.

Lemma twitter_request_shape_witness :
  exists before host user id rest,
    (host = "twitter.com/" \/ host = "x.com/") /\
    tweet_url = before ++ host ++ user ++ "/status/" ++ id ++ rest /\
    user <> EmptyString /\ id <> EmptyString /\
    all_units not_slash user = true /\ all_units digit id = true /\
    forall w,
      requests w (getTwitterMetrics example_config tweet_url) =
        [serper_search example_config
           ("site:twitter.com OR site:x.com " ++ dquote ++ id ++ dquote ++
            " engagement metrics")].
Proof.
  eapply (twitter_request_shape example_config tweet_url). vm_compute.
  reflexivity.
Defined.



Lemma latest_of_a_tie_witness :
  MemStorage.getLatestMetrics reddit_url
    (replay [(1%Z, stored reddit_url "2025-01-01T00:00:00.000Z");
             (5%Z, stored reddit_url "2025-01-01T00:00:05.000Z");
             (5%Z, stored reddit_url "2025-01-01T00:00:05.001Z")]) =
  Some {| MemStorage.id := 2;
          MemStorage.row := stored reddit_url "2025-01-01T00:00:05.000Z";
          MemStorage.createdAt := Some 5%Z |}.
Proof.
  refine (latest_of_a_tie
            [(1%Z, stored reddit_url "2025-01-01T00:00:00.000Z")] 5%Z
            (stored reddit_url "2025-01-01T00:00:05.000Z")
            (stored reddit_url "2025-01-01T00:00:05.001Z")
            "h" _ eq_refl eq_refl _).
  intros p [<-|[]] _. simpl. lia.
Defined.

Lemma reddit_metrics_witness :
  exists r,
    run (answering
           (reddit_listing
              (VObj [("ups", VNum 42); ("downs", VNum 0);
                     ("num_comments", VNull)]))
           "2025-01-01T00:00:00.000Z")
        (getRedditMetrics reddit_url) = Value r /\
    success r = true /\
    upvotes (metrics r) = Some (VNum 42) /\
    downvotes (metrics r) = Some (VNum 0) /\
    comments (metrics r) = Some (VNum 0) /\
    awards (metrics r) = Some (VNum 0).
Proof.
  pose proof (reddit_metrics reddit_url
                (answering
                   (reddit_listing
                      (VObj [("ups", VNum 42); ("downs", VNum 0);
                             ("num_comments", VNull)]))
                   "2025-01-01T00:00:00.000Z")
                {| ok := true; statusText := "OK" |}
                (reddit_listing
                   (VObj [("ups", VNum 42); ("downs", VNum 0);
                          ("num_comments", VNull)]))
                (VObj [("ups", VNum 42); ("downs", VNum 0);
                       ("num_comments", VNull)])) as H.
  simpl truthy in H.
  destruct H as (r & Hrun & _ & _ & Hs & _ & _ & _ & _ & _ & _ & _ & _ & _ & _
                 & _ & Hpost & _).
  - eexists. vm_compute. reflexivity.
  - reflexivity.
  - reflexivity.
  - reflexivity.
  - reflexivity.
  - destruct (Hpost _ eq_refl) as (H1 & H2 & H3 & H4).
    exists r. repeat split; assumption.
Defined.
